(** * The Node client of glide-for-redis: request/response correlation

    A shallow embedding of [node/src/BaseClient.ts] (class [BaseClient]) and
    of the routing part of [RedisClusterClient.ts], followed by the
    properties of the dispatch engine that the specification states about
    them.

    The client is single threaded: every method and every event listener
    runs to completion, so each of them is a function on the client state.
    The socket and the promises handed to callers are part of that state:
    what was passed to [socket.write], whether [socket.end] was called, and
    which promise was settled with which outcome, in the order it happened. *)

From Stdlib Require Import String List Bool Arith ZArith Lia.
From Stdlib.Strings Require Import Byte.
Import ListNotations.

Set Implicit Arguments.

Local Open Scope list_scope.

(** ** Messages of the wire protocol

    [ProtobufMessage] is generated code; the shapes below are the fields
    the client reads and writes. *)

Definition bytes := list byte.

Module response.

Inductive RequestErrorType :=
| Unspecified
| ExecAbort
| Timeout
| Disconnect
| UnknownErrorType (n : nat).

Inductive ConstantResponse :=
| OK
| UnknownConstant (n : nat).

Record RequestError := {
  type : option RequestErrorType;
  message : option string
}.

(** [respPointer] is a [number] or a [Long]; the two halves of a [Long]
    are signed 32-bit integers. *)
Inductive Pointer :=
| PNumber (n : nat)
| PLong (high low : Z).

Record Response := {
  callbackIdx : nat;
  respPointer : option Pointer;
  constantResponse : option ConstantResponse;
  requestError : option RequestError;
  closingError : option string
}.

End response.

Module redis_request.

Inductive SimpleRoutes := AllNodes | AllPrimaries | Random.

Inductive SlotTypes := Primary | Replica.

Record SlotKeyRoute := { slotKey_slotType : SlotTypes; slotKey : string }.

Record SlotIdRoute := { slotId_slotType : SlotTypes; slotId : nat }.

(** A field of a JavaScript message object holds whatever object was
    assigned to it; the two route messages are told apart by their
    class. *)
Inductive RouteObject :=
| OfSlotKeyRoute (r : SlotKeyRoute)
| OfSlotIdRoute (r : SlotIdRoute).

Record Routes := {
  simpleRoutes : option SimpleRoutes;
  slotKeyRoute : option RouteObject;
  slotIdRoute : option RouteObject
}.

(** Commands are built by [Commands.ts]; the client passes them on
    without looking inside. *)
Record Command := { requestType : nat; argsArray : list string }.

Record ScriptInvocation := {
  hash : string;
  keys : list string;
  args : list string
}.

Record Transaction := { commands : list Command }.

Inductive RequestBody :=
| singleCommand (c : Command)
| transaction (t : Transaction)
| scriptInvocation (s : ScriptInvocation).

Record RedisRequest := {
  callbackIdx : nat;
  body : RequestBody;
  route : option Routes
}.

End redis_request.

(** ** Routes of the cluster client (RedisClusterClient.ts) *)

Inductive SlotIdType := primarySlotId | replicaSlotId.

Inductive SlotKeyType := primarySlotKey | replicaSlotKey.

Inductive SingleNodeRoute :=
| randomNode
| SlotIdTypes (type : SlotIdType) (id : nat)
| SlotKeyTypes (type : SlotKeyType) (key : string).

Inductive Routes :=
| SingleNode (r : SingleNodeRoute)
| allPrimaries
| allNodes.

Definition Routes_create (simple : option redis_request.SimpleRoutes)
    (slotKeyRoute slotIdRoute : option redis_request.RouteObject)
  : redis_request.Routes :=
  {| redis_request.simpleRoutes := simple;
     redis_request.slotKeyRoute := slotKeyRoute;
     redis_request.slotIdRoute := slotIdRoute |}.

Definition toProtobufRoute (route : option Routes)
  : option redis_request.Routes :=
  match route with
  | None => None
  | Some allPrimaries =>
      Some (Routes_create (Some redis_request.AllPrimaries) None None)
  | Some allNodes =>
      Some (Routes_create (Some redis_request.AllNodes) None None)
  | Some (SingleNode randomNode) =>
      Some (Routes_create (Some redis_request.Random) None None)
  | Some (SingleNode (SlotKeyTypes primarySlotKey key)) =>
      Some (Routes_create None
              (Some (redis_request.OfSlotKeyRoute
                       {| redis_request.slotKey_slotType := redis_request.Primary;
                          redis_request.slotKey := key |}))
              None)
  | Some (SingleNode (SlotKeyTypes replicaSlotKey key)) =>
      Some (Routes_create None
              (Some (redis_request.OfSlotKeyRoute
                       {| redis_request.slotKey_slotType := redis_request.Replica;
                          redis_request.slotKey := key |}))
              None)
  | Some (SingleNode (SlotIdTypes primarySlotId id)) =>
      Some (Routes_create None
              (Some (redis_request.OfSlotIdRoute
                       {| redis_request.slotId_slotType := redis_request.Primary;
                          redis_request.slotId := id |}))
              None)
  | Some (SingleNode (SlotIdTypes replicaSlotId id)) =>
      Some (Routes_create None
              (Some (redis_request.OfSlotIdRoute
                       {| redis_request.slotId_slotType := redis_request.Replica;
                          redis_request.slotId := id |}))
              None)
  end.

(** ** Errors and promise outcomes (Errors.ts) *)

Inductive ErrorClass :=
| ClosingError
| ConnectionError
| ExecAbortError
| TimeoutError
| RequestError.

Definition getRequestErrorClass (type : option response.RequestErrorType)
  : ErrorClass :=
  match type with
  | Some response.Disconnect => ConnectionError
  | Some response.ExecAbort => ExecAbortError
  | Some response.Timeout => TimeoutError
  | Some response.Unspecified => RequestError
  | _ => RequestError
  end.

(** What a promise is resolved with: [null], a string, or the value the
    native helper [valueFromSplitPointer high low] builds. *)
Inductive Value :=
| Null
| Str (s : string)
| valueFromSplitPointer (high low : Z).

Inductive Outcome :=
| Resolved (v : Value)
| Rejected (cls : ErrorClass) (msg : option string).

Inductive Exception :=
| TypeError
| Raised (cls : ErrorClass) (msg : option string).

(** ** The client state *)

(** A promise is named by the order of its creation. *)
Definition PromiseId := nat.

Record Client := {
  (** [promiseCallbackFunctions]: the promise whose [resolve, reject] pair
      sits in each slot; [None] is a hole of the array. *)
  promiseCallbackFunctions : list (option PromiseId);
  (** [availableCallbackSlots], last pushed element first. *)
  availableCallbackSlots : list nat;
  requestWriter : bytes;
  writeInProgress : bool;
  remainingReadData : option bytes;
  isClosed : bool;
  (** The socket: the buffers passed to [write], oldest first; the write
      callbacks not yet invoked; whether [end] was called. *)
  socketWritten : list bytes;
  socketCallbacks : nat;
  socketEnded : bool;
  (** The promises: for each promise created by the client, the callback
      index its executor captured; and the settlements that took effect,
      oldest first. *)
  issued : list nat;
  settlements : list (PromiseId * Outcome)
}.

Definition newClient : Client :=
  {| promiseCallbackFunctions := [];
     availableCallbackSlots := [];
     requestWriter := [];
     writeInProgress := false;
     remainingReadData := None;
     isClosed := false;
     socketWritten := [];
     socketCallbacks := 0;
     socketEnded := false;
     issued := [];
     settlements := [] |}.

Definition set_promiseCallbackFunctions v (c : Client) : Client :=
  {| promiseCallbackFunctions := v;
     availableCallbackSlots := availableCallbackSlots c;
     requestWriter := requestWriter c;
     writeInProgress := writeInProgress c;
     remainingReadData := remainingReadData c;
     isClosed := isClosed c;
     socketWritten := socketWritten c;
     socketCallbacks := socketCallbacks c;
     socketEnded := socketEnded c;
     issued := issued c;
     settlements := settlements c |}.

Definition set_availableCallbackSlots v (c : Client) : Client :=
  {| promiseCallbackFunctions := promiseCallbackFunctions c;
     availableCallbackSlots := v;
     requestWriter := requestWriter c;
     writeInProgress := writeInProgress c;
     remainingReadData := remainingReadData c;
     isClosed := isClosed c;
     socketWritten := socketWritten c;
     socketCallbacks := socketCallbacks c;
     socketEnded := socketEnded c;
     issued := issued c;
     settlements := settlements c |}.

Definition set_requestWriter v (c : Client) : Client :=
  {| promiseCallbackFunctions := promiseCallbackFunctions c;
     availableCallbackSlots := availableCallbackSlots c;
     requestWriter := v;
     writeInProgress := writeInProgress c;
     remainingReadData := remainingReadData c;
     isClosed := isClosed c;
     socketWritten := socketWritten c;
     socketCallbacks := socketCallbacks c;
     socketEnded := socketEnded c;
     issued := issued c;
     settlements := settlements c |}.

Definition set_writeInProgress v (c : Client) : Client :=
  {| promiseCallbackFunctions := promiseCallbackFunctions c;
     availableCallbackSlots := availableCallbackSlots c;
     requestWriter := requestWriter c;
     writeInProgress := v;
     remainingReadData := remainingReadData c;
     isClosed := isClosed c;
     socketWritten := socketWritten c;
     socketCallbacks := socketCallbacks c;
     socketEnded := socketEnded c;
     issued := issued c;
     settlements := settlements c |}.

Definition set_remainingReadData v (c : Client) : Client :=
  {| promiseCallbackFunctions := promiseCallbackFunctions c;
     availableCallbackSlots := availableCallbackSlots c;
     requestWriter := requestWriter c;
     writeInProgress := writeInProgress c;
     remainingReadData := v;
     isClosed := isClosed c;
     socketWritten := socketWritten c;
     socketCallbacks := socketCallbacks c;
     socketEnded := socketEnded c;
     issued := issued c;
     settlements := settlements c |}.

Definition set_isClosed v (c : Client) : Client :=
  {| promiseCallbackFunctions := promiseCallbackFunctions c;
     availableCallbackSlots := availableCallbackSlots c;
     requestWriter := requestWriter c;
     writeInProgress := writeInProgress c;
     remainingReadData := remainingReadData c;
     isClosed := v;
     socketWritten := socketWritten c;
     socketCallbacks := socketCallbacks c;
     socketEnded := socketEnded c;
     issued := issued c;
     settlements := settlements c |}.

(** [socket.write(requests, undefined, callback)] *)
Definition socket_write (requests : bytes) (c : Client) : Client :=
  {| promiseCallbackFunctions := promiseCallbackFunctions c;
     availableCallbackSlots := availableCallbackSlots c;
     requestWriter := requestWriter c;
     writeInProgress := writeInProgress c;
     remainingReadData := remainingReadData c;
     isClosed := isClosed c;
     socketWritten := socketWritten c ++ [requests];
     socketCallbacks := S (socketCallbacks c);
     socketEnded := socketEnded c;
     issued := issued c;
     settlements := settlements c |}.

Definition set_socketCallbacks v (c : Client) : Client :=
  {| promiseCallbackFunctions := promiseCallbackFunctions c;
     availableCallbackSlots := availableCallbackSlots c;
     requestWriter := requestWriter c;
     writeInProgress := writeInProgress c;
     remainingReadData := remainingReadData c;
     isClosed := isClosed c;
     socketWritten := socketWritten c;
     socketCallbacks := v;
     socketEnded := socketEnded c;
     issued := issued c;
     settlements := settlements c |}.

(** [socket.end()] *)
Definition socket_end (c : Client) : Client :=
  {| promiseCallbackFunctions := promiseCallbackFunctions c;
     availableCallbackSlots := availableCallbackSlots c;
     requestWriter := requestWriter c;
     writeInProgress := writeInProgress c;
     remainingReadData := remainingReadData c;
     isClosed := isClosed c;
     socketWritten := socketWritten c;
     socketCallbacks := socketCallbacks c;
     socketEnded := true;
     issued := issued c;
     settlements := settlements c |}.

Definition set_issued v (c : Client) : Client :=
  {| promiseCallbackFunctions := promiseCallbackFunctions c;
     availableCallbackSlots := availableCallbackSlots c;
     requestWriter := requestWriter c;
     writeInProgress := writeInProgress c;
     remainingReadData := remainingReadData c;
     isClosed := isClosed c;
     socketWritten := socketWritten c;
     socketCallbacks := socketCallbacks c;
     socketEnded := socketEnded c;
     issued := v;
     settlements := settlements c |}.

Definition set_settlements v (c : Client) : Client :=
  {| promiseCallbackFunctions := promiseCallbackFunctions c;
     availableCallbackSlots := availableCallbackSlots c;
     requestWriter := requestWriter c;
     writeInProgress := writeInProgress c;
     remainingReadData := remainingReadData c;
     isClosed := isClosed c;
     socketWritten := socketWritten c;
     socketCallbacks := socketCallbacks c;
     socketEnded := socketEnded c;
     issued := issued c;
     settlements := v |}.

(** ** Promises *)

(** Whether promise [p] has been settled. *)
Definition settledb (p : PromiseId) (log : list (PromiseId * Outcome)) : bool :=
  existsb (fun e => Nat.eqb (fst e) p) log.

(** Calling [resolve] or [reject] of promise [p]: the first call settles
    the promise, every later call does nothing. *)
Definition settle (p : PromiseId) (o : Outcome) (c : Client) : Client :=
  if settledb p (settlements c) then c
  else set_settlements (settlements c ++ [(p, o)]) c.

(** [new Promise(executor)]: the executor runs at once; it captured the
    callback index [callbackIndex]. *)
Definition newPromise (callbackIndex : nat) (c : Client) : PromiseId * Client :=
  (length (issued c), set_issued (issued c ++ [callbackIndex]) c).

(** A promise that exists and is not settled. *)
Definition pending (c : Client) (p : PromiseId) : Prop :=
  p < length (issued c) /\ settledb p (settlements c) = false.

(** ** Arrays *)

(** [array[i] = v]: replaces slot [i], or extends the array up to it,
    leaving holes in between. *)
Fixpoint array_set {A} (l : list (option A)) (i : nat) (v : A)
  : list (option A) :=
  match i, l with
  | 0, [] => [Some v]
  | 0, _ :: t => Some v :: t
  | S i', [] => None :: array_set [] i' v
  | S i', x :: t => x :: array_set t i' v
  end.

(** [array[i]]: [None] is [undefined], out of range or a hole. *)
Definition array_get {A} (l : list (option A)) (i : nat) : option A :=
  match nth_error l i with
  | Some (Some v) => Some v
  | _ => None
  end.

(** ** Results of a method call *)

Inductive Result (A : Type) :=
| Returned (a : A) (c : Client)
| Threw (e : Exception) (c : Client)
| OutOfFuel.

Arguments Returned {A} a c.
Arguments Threw {A} e c.
Arguments OutOfFuel {A}.

(** What [Response.decodeDelimited(reader)] does on the bytes from
    [reader.pos] on: a message and the bytes after it, a [RangeError], or
    another error. *)
Inductive Decode :=
| Decoded (message : response.Response) (rest : bytes)
| ThrowRangeError
| ThrowError (err : string).

(** The [command] argument of [createWritePromise]: a [Command], an array
    of them, or a [ScriptInvocation]. *)
Inductive CommandArgument :=
| OneCommand (c : redis_request.Command)
| CommandArray (cs : list redis_request.Command)
| Script (s : redis_request.ScriptInvocation).

(** ** The methods of [BaseClient] *)

Section BaseClient.

(** The codec of [protobufjs] and of the generated messages is taken as
    given: the decoder of response frames and the delimited encoder of
    requests. *)
Variable decodeDelimited : bytes -> Decode.
Variable encodeRequest : redis_request.RedisRequest -> bytes.

(** *** close *)

Definition rejectEntry (errorMessage : option string) (c : Client)
    (entry : option PromiseId) : Client :=
  match entry with
  | Some p => settle p (Rejected ClosingError errorMessage) c
  | None => c
  end.

Definition close (errorMessage : option string) (c : Client) : Client :=
  let c := set_isClosed true c in
  let c := fold_left (rejectEntry errorMessage)
             (promiseCallbackFunctions c) c in
  socket_end c.

(** *** handleReadData *)

(** Lines 244-265: what the promise of a response is settled with. *)
Definition outcomeOf (message : response.Response) : Outcome :=
  match response.requestError message with
  | Some e =>
      Rejected (getRequestErrorClass (response.type e)) (response.message e)
  | None =>
      match response.respPointer message with
      | Some (response.PNumber pointer) =>
          Resolved (valueFromSplitPointer 0 (Z.of_nat pointer))
      | Some (response.PLong high low) =>
          Resolved (valueFromSplitPointer high low)
      | None =>
          match response.constantResponse message with
          | Some response.OK => Resolved (Str "OK")
          | _ => Resolved Null
          end
      end
  end.

(** One round of the [while] loop of [handleReadData] either goes on to
    the next frame or leaves the method. *)
Inductive Round :=
| Next (c : Client)
| Leave (r : Result unit).

(** Lines 235-265: the round for a decoded [message]. *)
Definition processResponse (message : response.Response) (c : Client)
  : Round :=
  match response.closingError message with
  | Some closingError => Leave (Returned tt (close (Some closingError) c))
  | None =>
      match array_get (promiseCallbackFunctions c)
              (response.callbackIdx message) with
      | None => Leave (Threw TypeError c)
      | Some p =>
          let c := set_availableCallbackSlots
                     (response.callbackIdx message
                        :: availableCallbackSlots c) c in
          Next (settle p (outcomeOf message) c)
      end
  end.

(** The [while] loop over the frames of [buf]; [buf] is the part of the
    buffer from [reader.pos] on.  A decoder that takes at least one byte
    for every frame needs no more than [length buf] rounds. *)
Fixpoint readLoop (fuel : nat) (c : Client) (buf : bytes) : Result unit :=
  match buf with
  | [] => Returned tt (set_remainingReadData None c)
  | _ :: _ =>
      match fuel with
      | 0 => OutOfFuel
      | S fuel =>
          match decodeDelimited buf with
          | ThrowRangeError =>
              Returned tt (set_remainingReadData (Some buf) c)
          | ThrowError err =>
              Returned tt
                (close (Some ("Failed to decode the response: " ++ err)%string) c)
          | Decoded message rest =>
              match processResponse message c with
              | Leave r => r
              | Next c => readLoop fuel c rest
              end
          end
      end
  end.

(** Lines 209-211: the buffer the reader is created on. *)
Definition readBuffer (data : bytes) (c : Client) : bytes :=
  match remainingReadData c with
  | Some remaining => remaining ++ data
  | None => data
  end.

Definition handleReadData (data : bytes) (c : Client) : Result unit :=
  let buf := readBuffer data c in
  readLoop (length buf) c buf.

(** *** The write path *)

(** The body of [writeBufferedRequestsToSocket] up to the call of
    [socket.write]; the callback passed to it is [writeCallback]. *)
Definition writeBufferedRequestsToSocket (c : Client) : Client :=
  let c := set_writeInProgress true c in
  let requests := requestWriter c in
  let c := set_requestWriter [] c in
  socket_write requests c.

(** The callback of [socket.write]. *)
Definition writeCallback (c : Client) : Client :=
  if 0 <? length (requestWriter c)
  then writeBufferedRequestsToSocket c
  else set_writeInProgress false c.

(** The socket reports a finished write: the oldest outstanding callback
    runs.  Without an outstanding callback there is nothing to run. *)
Definition socketWriteDone (c : Client) : Client :=
  match socketCallbacks c with
  | 0 => c
  | S n => writeCallback (set_socketCallbacks n c)
  end.

Definition writeOrBufferRequest {TRequest : Type} (message : TRequest)
    (encodeDelimited : TRequest -> bytes) (c : Client) : Client :=
  let c := set_requestWriter (requestWriter c ++ encodeDelimited message) c in
  if writeInProgress c then c else writeBufferedRequestsToSocket c.

Definition RedisRequest_create (callbackIdx : nat)
    (command : CommandArgument) : redis_request.RedisRequest :=
  {| redis_request.callbackIdx := callbackIdx;
     redis_request.body :=
       match command with
       | CommandArray cs =>
           redis_request.transaction {| redis_request.commands := cs |}
       | OneCommand cmd => redis_request.singleCommand cmd
       | Script s => redis_request.scriptInvocation s
       end;
     redis_request.route := None |}.

Definition set_route (route : option redis_request.Routes)
    (m : redis_request.RedisRequest) : redis_request.RedisRequest :=
  {| redis_request.callbackIdx := redis_request.callbackIdx m;
     redis_request.body := redis_request.body m;
     redis_request.route := route |}.

Definition writeOrBufferRedisRequest (callbackIdx : nat)
    (command : CommandArgument) (route : option redis_request.Routes)
    (c : Client) : Client :=
  let message := RedisRequest_create callbackIdx command in
  let message := set_route route message in
  writeOrBufferRequest message encodeRequest c.

(** *** Callback slots *)

Definition getCallbackIndex (c : Client) : nat * Client :=
  match availableCallbackSlots c with
  | i :: slots => (i, set_availableCallbackSlots slots c)
  | [] => (length (promiseCallbackFunctions c), c)
  end.

Definition closedMessage : string :=
  "Unable to execute requests; the client is closed. Please create a new client.".

Definition createWritePromise (command : CommandArgument)
    (route : option redis_request.Routes) (c : Client) : Result PromiseId :=
  if isClosed c then Threw (Raised ClosingError (Some closedMessage)) c
  else
    let '(callbackIndex, c) := getCallbackIndex c in
    let '(promise, c) := newPromise callbackIndex c in
    let c := set_promiseCallbackFunctions
               (array_set (promiseCallbackFunctions c) callbackIndex promise)
               c in
    Returned promise (writeOrBufferRedisRequest callbackIndex command route c).

(** [connectToServer]: [connectionRequest] stands for the delimited
    encoding of the [ConnectionRequest] built from the options. *)
Definition connectToServer (connectionRequest : bytes) (c : Client)
  : PromiseId * Client :=
  let '(promise, c) := newPromise 0 c in
  let c := set_promiseCallbackFunctions
             (array_set (promiseCallbackFunctions c) 0 promise) c in
  (promise, writeOrBufferRequest connectionRequest (fun b => b) c).

(** *** RedisClusterClient *)

(** [exec(transaction, route)], with [commands] the [commands] field of
    the transaction. *)
Definition exec (commands : list redis_request.Command)
    (route : option SingleNodeRoute) (c : Client) : Result PromiseId :=
  createWritePromise (CommandArray commands)
    (toProtobufRoute (option_map SingleNode route)) c.

End BaseClient.

(** ** Feeding the socket's data events *)

Section Reading.

Variable decodeDelimited : bytes -> Decode.

(** The ['data'] listener runs once per chunk.  An exception it throws
    is caught nowhere in the client: the run ends with it. *)
Fixpoint feed (chunks : list bytes) (c : Client) : Result unit :=
  match chunks with
  | [] => Returned tt c
  | data :: chunks =>
      match handleReadData decodeDelimited data c with
      | Returned _ c => feed chunks c
      | r => r
      end
  end.

(** The settlements a run has made, in order. *)
Definition settledBy (r : Result unit)
  : option (list (PromiseId * Outcome)) :=
  match r with
  | Returned _ c => Some (settlements c)
  | Threw _ c => Some (settlements c)
  | OutOfFuel => None
  end.

(** The rounds of [handleReadData] over frames already decoded. *)
Fixpoint advance (frames : list response.Response) (c : Client) : Round :=
  match frames with
  | [] => Next c
  | message :: frames =>
      match processResponse message c with
      | Next c => advance frames c
      | Leave r => Leave r
      end
  end.

(** *** What is assumed of the codec *)

Variable encodeDelimited : response.Response -> bytes.

(** The byte stream of a sequence of frames. *)
Definition stream (frames : list response.Response) : bytes :=
  flat_map encodeDelimited frames.

(** Length-delimited framing of one message: its encoding is not empty,
    is decoded back from the front of any buffer, and a buffer that
    ends inside it makes the reader run out of range. *)
Definition well_framed (message : response.Response) : Prop :=
  encodeDelimited message <> []
  /\ (forall rest,
        decodeDelimited (encodeDelimited message ++ rest)
        = Decoded message rest)
  /\ (forall front back,
        front <> [] -> back <> [] ->
        front ++ back = encodeDelimited message ->
        decodeDelimited front = ThrowRangeError).

(** The reader moves forward with every message it decodes. *)
Definition reader_advances : Prop :=
  forall buf message rest,
    decodeDelimited buf = Decoded message rest -> length rest < length buf.

(** A frame that answers a registered callback and does not close the
    client. *)
Definition plain (c : Client) (message : response.Response) : Prop :=
  response.closingError message = None
  /\ array_get (promiseCallbackFunctions c) (response.callbackIdx message)
     <> None.

End Reading.

(** ** The life of a client *)

Section Lifecycle.

Variable encodeRequest : redis_request.RedisRequest -> bytes.

(** A response frame answers a request when a request is registered
    under its callback index and that slot has not been freed since: the
    request has had no response yet. *)
Definition answers (c : Client) (message : response.Response) : Prop :=
  (exists p,
      array_get (promiseCallbackFunctions c) (response.callbackIdx message)
      = Some p)
  /\ ~ In (response.callbackIdx message) (availableCallbackSlots c).

(** The steps of a client.  [__createClientInternal] calls
    [connectToServer] once, on the client it has just constructed.  The
    peer is the core of the library: it sends one response frame for a
    request, never a second one. *)
Inductive step (c : Client) : Client -> Prop :=
| step_connect connectionRequest :
    promiseCallbackFunctions c = [] ->
    availableCallbackSlots c = [] ->
    isClosed c = false ->
    step c (snd (connectToServer connectionRequest c))
| step_submit command route p c' :
    createWritePromise encodeRequest command route c = Returned p c' ->
    step c c'
| step_response message c' :
    answers c message ->
    processResponse message c = Next c' ->
    step c c'
| step_buffer remaining :
    step c (set_remainingReadData remaining c)
| step_close errorMessage :
    step c (close errorMessage c)
| step_written :
    step c (socketWriteDone c).

Inductive reachable : Client -> Prop :=
| reachable_new : reachable newClient
| reachable_step c c' : reachable c -> step c c' -> reachable c'.

(** A sequence of frames delivered to [c] in which every frame that gets
    its round answers a request. *)
Fixpoint answering (frames : list response.Response) (c : Client) : Prop :=
  match frames with
  | [] => True
  | message :: frames =>
      match processResponse message c with
      | Next c' => answers c message /\ answering frames c'
      | Leave _ => True
      end
  end.

End Lifecycle.

(** ** The write path as a sequence of events *)

Inductive WriterEvent :=
| Submit (request : bytes)
| WriteDone.

Definition perform (c : Client) (e : WriterEvent) : Client :=
  match e with
  | Submit request => writeOrBufferRequest request (fun b => b) c
  | WriteDone => socketWriteDone c
  end.

Definition run (events : list WriterEvent) (c : Client) : Client :=
  fold_left perform events c.

(** The bytes submitted by a sequence of events, in submission order. *)
Definition submitted (events : list WriterEvent) : bytes :=
  flat_map (fun e => match e with Submit request => request | WriteDone => [] end)
    events.

(** ** A small wire format

    One length byte, then the body: the callback index, a tag, and the
    payload of the tag.  The statements below are exercised on it. *)

Module SampleWire.

Fixpoint take (n : nat) (l : bytes) : option (bytes * bytes) :=
  match n, l with
  | 0, _ => Some ([], l)
  | S _, [] => None
  | S n, b :: l =>
      match take n l with
      | Some (front, back) => Some (b :: front, back)
      | None => None
      end
  end.

Definition byte_of (n : nat) : byte :=
  match Byte.of_nat n with Some b => b | None => x00 end.

(** A byte read as a signed number, and back. *)
Definition signed (b : byte) : Z :=
  let n := Z.of_nat (Byte.to_nat b) in
  if (128 <=? n)%Z then (n - 256)%Z else n.

Definition byte_of_signed (z : Z) : byte :=
  byte_of (Z.to_nat (z mod 256)).

Definition errorTypeOf (n : nat) : response.RequestErrorType :=
  match n with
  | 0 => response.Unspecified
  | 1 => response.ExecAbort
  | 2 => response.Timeout
  | 3 => response.Disconnect
  | _ => response.UnknownErrorType n
  end.

Definition errorTypeCode (t : option response.RequestErrorType) : nat :=
  match t with
  | Some response.Unspecified | None => 0
  | Some response.ExecAbort => 1
  | Some response.Timeout => 2
  | Some response.Disconnect => 3
  | Some (response.UnknownErrorType n) => n
  end.

Definition mkResponse idx ptr const err closing : response.Response :=
  {| response.callbackIdx := idx;
     response.respPointer := ptr;
     response.constantResponse := const;
     response.requestError := err;
     response.closingError := closing |}.

Definition parseBody (body : bytes) : option response.Response :=
  match body with
  | idx :: tag :: payload =>
      let i := Byte.to_nat idx in
      match Byte.to_nat tag, payload with
      | 0, [] => Some (mkResponse i None None None None)
      | 1, [] => Some (mkResponse i None (Some response.OK) None None)
      | 2, [pointer] =>
          Some (mkResponse i (Some (response.PNumber (Byte.to_nat pointer)))
                  None None None)
      | 3, kind :: text =>
          Some (mkResponse i None None
                  (Some {| response.type :=
                             Some (errorTypeOf (Byte.to_nat kind));
                           response.message :=
                             Some (string_of_list_byte text) |})
                  None)
      | 4, text =>
          Some (mkResponse i None None None
                  (Some (string_of_list_byte text)))
      | 5, [high; low] =>
          Some (mkResponse i (Some (response.PLong (signed high) (signed low)))
                  None None None)
      | _, _ => None
      end
  | _ => None
  end.

Definition decodeDelimited (buf : bytes) : Decode :=
  match buf with
  | [] => ThrowRangeError
  | len :: rest =>
      match take (Byte.to_nat len) rest with
      | None => ThrowRangeError
      | Some (body, rest) =>
          match parseBody body with
          | Some message => Decoded message rest
          | None => ThrowError "invalid wire type"
          end
      end
  end.

Definition text_of (s : option string) : bytes :=
  match s with Some s => list_byte_of_string s | None => [] end.

Definition encodeBody (m : response.Response) : bytes :=
  byte_of (response.callbackIdx m)
  :: match response.closingError m, response.requestError m,
           response.respPointer m, response.constantResponse m with
     | Some text, _, _, _ => x04 :: list_byte_of_string text
     | None, Some e, _, _ =>
         x03 :: byte_of (errorTypeCode (response.type e))
             :: text_of (response.message e)
     | None, None, Some (response.PNumber n), _ => [x02; byte_of n]
     | None, None, Some (response.PLong high low), _ =>
         [x05; byte_of_signed high; byte_of_signed low]
     | None, None, None, Some response.OK => [x01]
     | None, None, None, _ => [x00]
     end.

Definition encodeDelimited (m : response.Response) : bytes :=
  let body := encodeBody m in
  byte_of (length body) :: body.

Definition encodeRequest (m : redis_request.RedisRequest) : bytes :=
  [x01; byte_of (redis_request.callbackIdx m)].

(** Frames used in the examples. *)
Definition nullFrame (idx : nat) : response.Response :=
  mkResponse idx None None None None.

Definition okFrame (idx : nat) : response.Response :=
  mkResponse idx None (Some response.OK) None None.

Definition errorFrame (idx : nat) (kind : response.RequestErrorType)
    (text : string) : response.Response :=
  mkResponse idx None None
    (Some {| response.type := Some kind; response.message := Some text |})
    None.

Definition closingFrame (text : string) : response.Response :=
  mkResponse 0 None None None (Some text).

End SampleWire.

(** * Properties *)

(** ** Promises are settled once *)

Lemma settledb_app p log more :
  settledb p (log ++ more) = settledb p log || settledb p more.
Proof. unfold settledb. apply existsb_app. Qed.

Lemma settledb_grows p log more :
  settledb p log = true -> settledb p (log ++ more) = true.
Proof. intros H. rewrite settledb_app, H. reflexivity. Qed.

Lemma settledb_In p log :
  settledb p log = true <-> In p (map fst log).
Proof.
  unfold settledb. rewrite existsb_exists. split.
  - intros [[q o] [Hin Heq]]. apply Nat.eqb_eq in Heq. simpl in Heq. subst q.
    apply in_map_iff. exists (p, o). auto.
  - intros Hin. apply in_map_iff in Hin. destruct Hin as [[q o] [Heq Hin]].
    simpl in Heq. subst q. exists (p, o). split; [assumption|].
    apply Nat.eqb_refl.
Qed.

Lemma settle_settled p o c :
  settledb p (settlements c) = true -> settle p o c = c.
Proof. intros H. unfold settle. rewrite H. reflexivity. Qed.

Lemma settle_fresh p o c :
  settledb p (settlements c) = false ->
  settle p o c = set_settlements (settlements c ++ [(p, o)]) c.
Proof. intros H. unfold settle. rewrite H. reflexivity. Qed.

Lemma settle_settles p o c : settledb p (settlements (settle p o c)) = true.
Proof.
  unfold settle. destruct (settledb p (settlements c)) eqn:E; simpl.
  - assumption.
  - rewrite settledb_app. simpl. rewrite Nat.eqb_refl.
    apply orb_true_iff. right. reflexivity.
Qed.

Lemma settle_keeps q p o c :
  settledb q (settlements c) = true ->
  settledb q (settlements (settle p o c)) = true.
Proof.
  intros H. unfold settle. destruct (settledb p (settlements c)); simpl.
  - assumption.
  - apply settledb_grows. assumption.
Qed.

(** [settle] touches the settlements only. *)
Lemma settle_fields p o c :
  promiseCallbackFunctions (settle p o c) = promiseCallbackFunctions c
  /\ availableCallbackSlots (settle p o c) = availableCallbackSlots c
  /\ requestWriter (settle p o c) = requestWriter c
  /\ writeInProgress (settle p o c) = writeInProgress c
  /\ remainingReadData (settle p o c) = remainingReadData c
  /\ isClosed (settle p o c) = isClosed c
  /\ socketWritten (settle p o c) = socketWritten c
  /\ socketCallbacks (settle p o c) = socketCallbacks c
  /\ socketEnded (settle p o c) = socketEnded c
  /\ issued (settle p o c) = issued c.
Proof. unfold settle. destruct (settledb p (settlements c)); repeat split. Qed.

Lemma settle_table p o c :
  promiseCallbackFunctions (settle p o c) = promiseCallbackFunctions c.
Proof. apply settle_fields. Qed.

Lemma settle_issued p o c : issued (settle p o c) = issued c.
Proof. apply settle_fields. Qed.

(** ** [close] *)

Lemma reject_all_fields msg l : forall c,
  let c' := fold_left (rejectEntry msg) l c in
  promiseCallbackFunctions c' = promiseCallbackFunctions c
  /\ availableCallbackSlots c' = availableCallbackSlots c
  /\ requestWriter c' = requestWriter c
  /\ writeInProgress c' = writeInProgress c
  /\ remainingReadData c' = remainingReadData c
  /\ isClosed c' = isClosed c
  /\ socketWritten c' = socketWritten c
  /\ socketCallbacks c' = socketCallbacks c
  /\ socketEnded c' = socketEnded c
  /\ issued c' = issued c.
Proof.
  induction l as [|entry l IH]; intros c; simpl.
  - repeat split.
  - specialize (IH (rejectEntry msg c entry)). simpl in IH.
    destruct entry as [p|]; simpl in *.
    + pose proof (settle_fields p (Rejected ClosingError msg) c) as F.
      repeat match goal with H : _ /\ _ |- _ => destruct H end.
      repeat split; congruence.
    + exact IH.
Qed.

Lemma reject_all_keeps msg q l : forall c,
  settledb q (settlements c) = true ->
  settledb q (settlements (fold_left (rejectEntry msg) l c)) = true.
Proof.
  induction l as [|entry l IH]; intros c H; simpl.
  - assumption.
  - apply IH. destruct entry; simpl; [apply settle_keeps|]; assumption.
Qed.

Lemma reject_all_settles msg p l : forall c,
  In (Some p) l ->
  settledb p (settlements (fold_left (rejectEntry msg) l c)) = true.
Proof.
  induction l as [|entry l IH]; intros c Hin; simpl.
  - contradiction.
  - destruct Hin as [-> | Hin].
    + apply reject_all_keeps. simpl. apply settle_settles.
    + apply IH. assumption.
Qed.

(** A client none of whose registered promises is pending. *)
Definition all_settled (c : Client) : Prop :=
  forall p, In (Some p) (promiseCallbackFunctions c) ->
            settledb p (settlements c) = true.

Lemma reject_all_idle msg l : forall c,
  (forall p, In (Some p) l -> settledb p (settlements c) = true) ->
  fold_left (rejectEntry msg) l c = c.
Proof.
  induction l as [|entry l IH]; intros c H; simpl.
  - reflexivity.
  - assert (E : rejectEntry msg c entry = c).
    { destruct entry as [p|]; simpl; [|reflexivity].
      apply settle_settled. apply H. left. reflexivity. }
    rewrite E. apply IH. intros p Hp. apply H. right. assumption.
Qed.

Lemma close_table msg c :
  promiseCallbackFunctions (close msg c) = promiseCallbackFunctions c.
Proof.
  unfold close. simpl.
  apply (reject_all_fields msg (promiseCallbackFunctions c) (set_isClosed true c)).
Qed.

Lemma close_isClosed msg c : isClosed (close msg c) = true.
Proof.
  unfold close. simpl.
  apply (reject_all_fields msg (promiseCallbackFunctions c) (set_isClosed true c)).
Qed.

Lemma close_socketEnded msg c : socketEnded (close msg c) = true.
Proof. reflexivity. Qed.

Lemma close_issued msg c : issued (close msg c) = issued c.
Proof.
  unfold close. simpl.
  apply (reject_all_fields msg (promiseCallbackFunctions c) (set_isClosed true c)).
Qed.

Lemma close_settlements msg c :
  settlements (close msg c)
  = settlements (fold_left (rejectEntry msg) (promiseCallbackFunctions c) c).
Proof.
  unfold close. simpl.
  generalize (promiseCallbackFunctions c) as l. intros l.
  revert c. induction l as [|entry l IH]; intros c; simpl.
  - reflexivity.
  - destruct entry as [p|]; simpl.
    + unfold settle. simpl. destruct (settledb p (settlements c)); simpl.
      * apply IH.
      * apply (IH (set_settlements (settlements c ++ [(p, Rejected ClosingError msg)]) c)).
    + apply IH.
Qed.

Lemma close_all_settled msg c : all_settled (close msg c).
Proof.
  intros p Hin. rewrite close_table in Hin. rewrite close_settlements.
  apply reject_all_settles. assumption.
Qed.

Lemma close_idle msg c :
  all_settled c -> settlements (close msg c) = settlements c.
Proof.
  intros H. rewrite close_settlements. rewrite reject_all_idle; auto.
Qed.

(** ** The read buffer does not influence the rounds *)

Definition onResult (f : Client -> Client) (r : Result unit) : Result unit :=
  match r with
  | Returned a c => Returned a (f c)
  | Threw e c => Threw e (f c)
  | OutOfFuel => OutOfFuel
  end.

Definition onRound (f : Client -> Client) (r : Round) : Round :=
  match r with
  | Next c => Next (f c)
  | Leave r => Leave (onResult f r)
  end.

Lemma set_remainingReadData_same c :
  set_remainingReadData (remainingReadData c) c = c.
Proof. destruct c; reflexivity. Qed.

Lemma settle_set_remaining p o r c :
  settle p o (set_remainingReadData r c)
  = set_remainingReadData r (settle p o c).
Proof.
  unfold settle. simpl. destruct (settledb p (settlements c)); reflexivity.
Qed.

Lemma reject_all_set_remaining msg r l : forall c,
  fold_left (rejectEntry msg) l (set_remainingReadData r c)
  = set_remainingReadData r (fold_left (rejectEntry msg) l c).
Proof.
  induction l as [|entry l IH]; intros c; simpl.
  - reflexivity.
  - destruct entry as [p|]; simpl.
    + rewrite settle_set_remaining. apply IH.
    + apply IH.
Qed.

Lemma close_set_remaining msg r c :
  close msg (set_remainingReadData r c)
  = set_remainingReadData r (close msg c).
Proof.
  unfold close. simpl.
  change (set_isClosed true (set_remainingReadData r c))
    with (set_remainingReadData r (set_isClosed true c)).
  rewrite reject_all_set_remaining. reflexivity.
Qed.

Lemma processResponse_set_remaining message r c :
  processResponse message (set_remainingReadData r c)
  = onRound (set_remainingReadData r) (processResponse message c).
Proof.
  unfold processResponse. simpl.
  destruct (response.closingError message) as [text|]; simpl.
  - rewrite close_set_remaining. reflexivity.
  - destruct (array_get (promiseCallbackFunctions c)
                (response.callbackIdx message)) as [p|]; simpl.
    + change (set_availableCallbackSlots
                (response.callbackIdx message :: availableCallbackSlots c)
                (set_remainingReadData r c))
        with (set_remainingReadData r
                (set_availableCallbackSlots
                   (response.callbackIdx message :: availableCallbackSlots c) c)).
      rewrite settle_set_remaining. reflexivity.
    + reflexivity.
Qed.

Lemma advance_set_remaining frames r : forall c,
  advance frames (set_remainingReadData r c)
  = onRound (set_remainingReadData r) (advance frames c).
Proof.
  induction frames as [|message frames IH]; intros c; simpl.
  - reflexivity.
  - rewrite processResponse_set_remaining.
    destruct (processResponse message c) as [c'|res]; simpl.
    + apply IH.
    + reflexivity.
Qed.

Lemma advance_app done rest : forall c,
  advance (done ++ rest) c
  = match advance done c with
    | Next c' => advance rest c'
    | Leave r => Leave r
    end.
Proof.
  induction done as [|message done IH]; intros c; simpl.
  - reflexivity.
  - destruct (processResponse message c) as [c'|res]; [apply IH | reflexivity].
Qed.

(** What leaves the loop inside a round: an exception, or a closed client
    none of whose promises is pending. *)
Inductive left_by : Result unit -> Prop :=
| left_by_throw c : left_by (Threw TypeError c)
| left_by_close msg c : left_by (Returned tt (close msg c)).

Lemma processResponse_Leave message c r :
  processResponse message c = Leave r -> left_by r.
Proof.
  unfold processResponse.
  destruct (response.closingError message) as [text|].
  - intros H. inversion H. constructor.
  - destruct (array_get _ _); intros H; inversion H. constructor.
Qed.

Lemma advance_Leave frames : forall c r,
  advance frames c = Leave r -> left_by r.
Proof.
  induction frames as [|message frames IH]; intros c r; simpl.
  - discriminate.
  - destruct (processResponse message c) as [c'|res] eqn:E.
    + apply IH.
    + intros H. inversion H; subst. eapply processResponse_Leave; eauto.
Qed.

Lemma processResponse_plain message c :
  plain c message -> exists c', processResponse message c = Next c'
    /\ promiseCallbackFunctions c' = promiseCallbackFunctions c.
Proof.
  intros [Hc Hr]. unfold processResponse. rewrite Hc.
  destruct (array_get _ _) as [p|]; [|congruence].
  eexists. split; [reflexivity|]. rewrite settle_table. reflexivity.
Qed.

Lemma advance_plain frames : forall c,
  Forall (plain c) frames -> exists c', advance frames c = Next c'.
Proof.
  induction frames as [|message frames IH]; intros c H; simpl.
  - eauto.
  - inversion H as [|? ? Hm Hrest]; subst.
    destruct (processResponse_plain Hm) as [c' [E T]]. rewrite E.
    apply IH. eapply Forall_impl; [|exact Hrest].
    intros m [Hc Hr]. split; [assumption|]. rewrite T. assumption.
Qed.

(** ** Partial reads *)

Section PartialReads.

Variable decodeDelimited : bytes -> Decode.
Variable encodeDelimited : response.Response -> bytes.

Let framed := well_framed decodeDelimited encodeDelimited.

(** The value [remainingReadData] takes for the unread bytes [pend]. *)
Definition buffered (pend : bytes) : option bytes :=
  match pend with
  | [] => None
  | _ :: _ => Some pend
  end.

(** The unread bytes are a strict front part of the next frame. *)
Definition inside (pend : bytes) (frames : list response.Response) : Prop :=
  pend = []
  \/ exists message rest back,
       frames = message :: rest /\ back <> []
       /\ pend ++ back = encodeDelimited message.

Lemma stream_nil frames :
  Forall framed frames -> stream encodeDelimited frames = [] -> frames = [].
Proof.
  intros Hf Hs. destruct frames as [|message frames]; [reflexivity|].
  inversion Hf as [|? ? [Hne _] _]; subst. simpl in Hs.
  apply app_eq_nil in Hs. destruct Hs as [Hs _]. contradiction.
Qed.

Lemma inside_whole pend frames :
  Forall framed frames -> inside pend frames ->
  pend = stream encodeDelimited frames -> pend = [] /\ frames = [].
Proof.
  intros Hf [-> | (message & rest & back & -> & Hback & Hsplit)] Hs.
  - split; [reflexivity|]. apply stream_nil; auto.
  - exfalso. simpl in Hs. apply (f_equal (@length byte)) in Hs, Hsplit.
    rewrite length_app in Hs, Hsplit.
    destruct back; [congruence|]. simpl in Hsplit. lia.
Qed.

Lemma handleReadData_buffered pend data c :
  handleReadData decodeDelimited data
    (set_remainingReadData (buffered pend) c)
  = readLoop decodeDelimited (length (pend ++ data))
      (set_remainingReadData (buffered pend) c) (pend ++ data).
Proof. unfold handleReadData. destruct pend; reflexivity. Qed.

(** One call of the loop on a buffer that is the front of a stream of
    frames: it processes the frames that are complete in the buffer, and
    keeps what follows them, a strict front part of the next frame. *)
Lemma readLoop_chunk frames : forall fuel c buf tail,
  Forall framed frames ->
  buf ++ tail = stream encodeDelimited frames ->
  length buf <= fuel ->
  exists done rest,
    frames = done ++ rest
    /\ match advance done c with
       | Leave r => readLoop decodeDelimited fuel c buf = r
       | Next c' =>
           exists pend,
             readLoop decodeDelimited fuel c buf
             = Returned tt (set_remainingReadData (buffered pend) c')
             /\ pend ++ tail = stream encodeDelimited rest
             /\ inside pend rest
       end.
Proof.
  induction frames as [|message frames IH]; intros fuel c buf tail Hf Hs Hfuel.
  - simpl in Hs. apply app_eq_nil in Hs. destruct Hs as [-> ->].
    exists [], []. split; [reflexivity|]. simpl. exists [].
    destruct fuel; simpl; repeat split; left; reflexivity.
  - inversion Hf as [|? ? Hm Hrest]; subst.
    destruct Hm as (Hne & Hdec & Hpart).
    destruct buf as [|b buf'].
    + exists [], (message :: frames). split; [reflexivity|]. simpl. exists [].
      destruct fuel; simpl; (split; [reflexivity|]);
        (split; [exact Hs | left; reflexivity]).
    + destruct fuel as [|fuel]; [simpl in Hfuel; lia|].
      assert (Hcases :
        (exists l, b :: buf' = encodeDelimited message ++ l
                   /\ stream encodeDelimited frames = l ++ tail)
        \/ (exists l, l <> []
                      /\ encodeDelimited message = (b :: buf') ++ l
                      /\ tail = l ++ stream encodeDelimited frames)).
      { simpl in Hs. change (b :: buf' ++ tail) with ((b :: buf') ++ tail) in Hs.
        apply app_eq_app in Hs. destruct Hs as [l [[H1 H2] | [H1 H2]]].
        - left. exists l. auto.
        - destruct l as [|x l].
          + left. exists []. rewrite app_nil_r in *. simpl in *. auto.
          + right. exists (x :: l). repeat split; auto. discriminate. }
      destruct Hcases as [[l [Hbuf Htail]] | [l [Hl [Henc Htail]]]].
      * assert (Hd : decodeDelimited (b :: buf') = Decoded message l).
        { rewrite Hbuf. apply Hdec. }
        assert (Hlen : length l <= fuel).
        { apply (f_equal (@length byte)) in Hbuf.
          rewrite length_app in Hbuf.
          destruct (encodeDelimited message); [congruence|].
          simpl in *. lia. }
        destruct (processResponse message c) as [c1|r] eqn:E.
        -- destruct (IH fuel c1 l tail Hrest (eq_sym Htail) Hlen)
             as (done & rest & Hsplit & Hrun).
           exists (message :: done), rest. split; [simpl; congruence|].
           simpl advance. rewrite E.
           simpl readLoop. rewrite Hd, E. exact Hrun.
        -- exists [message], frames. split; [reflexivity|].
           simpl advance. rewrite E. simpl readLoop. rewrite Hd, E.
           reflexivity.
      * assert (Hd : decodeDelimited (b :: buf') = ThrowRangeError).
        { apply (Hpart (b :: buf') l); [discriminate | assumption | auto]. }
        exists [], (message :: frames). split; [reflexivity|].
        simpl advance. exists (b :: buf'). simpl readLoop. rewrite Hd.
        split; [reflexivity|]. split.
        -- rewrite Htail. simpl stream. rewrite Henc.
           rewrite <- app_assoc. reflexivity.
        -- right. exists message, frames, l. auto.
Qed.

(** The whole stream in one chunk. *)
Lemma handleReadData_stream frames c :
  Forall framed frames ->
  remainingReadData c = None ->
  match advance frames c with
  | Next c' =>
      handleReadData decodeDelimited (stream encodeDelimited frames) c
      = Returned tt (set_remainingReadData None c')
  | Leave r =>
      handleReadData decodeDelimited (stream encodeDelimited frames) c = r
  end.
Proof.
  intros Hf Hrem. unfold handleReadData, readBuffer. rewrite Hrem.
  destruct (@readLoop_chunk frames
              (length (stream encodeDelimited frames)) c
              (stream encodeDelimited frames) [] Hf (app_nil_r _) (le_n _))
    as (done & rest & Hsplit & Hrun).
  subst frames. rewrite advance_app.
  destruct (advance done c) as [c'|r].
  - destruct Hrun as (pend & Hloop & Hpend & Hin).
    rewrite app_nil_r in Hpend.
    apply Forall_app in Hf. destruct Hf as [_ Hf].
    destruct (inside_whole Hf Hin Hpend) as [-> ->].
    simpl. exact Hloop.
  - exact Hrun.
Qed.

Hypothesis advances : reader_advances decodeDelimited.

Lemma array_get_In {A} (l : list (option A)) i v :
  array_get l i = Some v -> In (Some v) l.
Proof.
  unfold array_get. destruct (nth_error l i) as [[w|]|] eqn:E;
    intros H; inversion H; subst.
  eapply nth_error_In; eauto.
Qed.

(** Once no registered promise is pending, reading settles nothing. *)
Lemma readLoop_all_settled : forall fuel c buf,
  all_settled c -> length buf <= fuel ->
  exists c',
    (readLoop decodeDelimited fuel c buf = Returned tt c'
     \/ exists e, readLoop decodeDelimited fuel c buf = Threw e c')
    /\ all_settled c' /\ settlements c' = settlements c.
Proof.
  induction fuel as [|fuel IH]; intros c buf Hc Hlen.
  - destruct buf; [|simpl in Hlen; lia]. simpl.
    exists (set_remainingReadData None c). auto.
  - destruct buf as [|b buf'].
    + simpl. exists (set_remainingReadData None c). auto.
    + simpl readLoop.
      destruct (decodeDelimited (b :: buf')) as [message rest| |err] eqn:Hd.
      * unfold processResponse.
        destruct (response.closingError message) as [text|].
        -- exists (close (Some text) c). split; [left; reflexivity|].
           split; [apply close_all_settled | apply close_idle; assumption].
        -- destruct (array_get (promiseCallbackFunctions c)
                       (response.callbackIdx message)) as [p|] eqn:Hp.
           ++ rewrite settle_settled
                by (simpl; apply Hc; eapply array_get_In; eauto).
              apply advances in Hd. simpl in Hd, Hlen.
              destruct (IH (set_availableCallbackSlots
                              (response.callbackIdx message
                                 :: availableCallbackSlots c) c) rest)
                as (c' & Hrun & Hs & Hlog); [exact Hc | lia |].
              exists c'. auto.
           ++ exists c. split; [right; exists TypeError; reflexivity|]. auto.
      * exists (set_remainingReadData (Some (b :: buf')) c). auto.
      * eexists. split; [left; reflexivity|].
        split; [apply close_all_settled | apply close_idle; assumption].
Qed.

Lemma feed_all_settled chunks : forall c,
  all_settled c ->
  settledBy (feed decodeDelimited chunks c) = Some (settlements c).
Proof.
  induction chunks as [|data chunks IH]; intros c Hc; simpl.
  - reflexivity.
  - unfold handleReadData.
    destruct (@readLoop_all_settled (length (readBuffer data c)) c
                (readBuffer data c) Hc (le_n _))
      as (c' & [Hrun | [e Hrun]] & Hs & Hlog); rewrite Hrun.
    + rewrite IH by assumption. congruence.
    + simpl. congruence.
Qed.

(** Chunk after chunk: as long as no round has left the loop, the client
    is where the frame-by-frame run is, with the unread bytes buffered. *)
Lemma feed_chunks chunks : forall frames c pend,
  Forall framed frames ->
  pend ++ concat chunks = stream encodeDelimited frames ->
  inside pend frames ->
  match advance frames c with
  | Next c' =>
      feed decodeDelimited chunks (set_remainingReadData (buffered pend) c)
      = Returned tt (set_remainingReadData None c')
  | Leave r =>
      settledBy
        (feed decodeDelimited chunks
           (set_remainingReadData (buffered pend) c))
      = settledBy r
  end.
Proof.
  induction chunks as [|data chunks IH]; intros frames c pend Hf Hs Hin.
  - simpl in Hs. rewrite app_nil_r in Hs.
    destruct (inside_whole Hf Hin Hs) as [-> ->]. reflexivity.
  - simpl in Hs. rewrite app_assoc in Hs.
    destruct (@readLoop_chunk frames (length (pend ++ data))
                (set_remainingReadData (buffered pend) c)
                (pend ++ data) (concat chunks) Hf Hs (le_n _))
      as (done & rest & Hsplit & Hrun).
    subst frames. rewrite advance_app.
    rewrite advance_set_remaining in Hrun.
    simpl feed. rewrite handleReadData_buffered.
    apply Forall_app in Hf. destruct Hf as [_ Hf].
    destruct (advance done c) as [c1|r] eqn:E; simpl in Hrun.
    + destruct Hrun as (pend' & Hloop & Hpend & Hin').
      rewrite Hloop.
      change (set_remainingReadData (buffered pend')
                (set_remainingReadData (buffered pend) c1))
        with (set_remainingReadData (buffered pend') c1).
      apply IH; assumption.
    + rewrite Hrun. apply advance_Leave in E.
      destruct E as [c0 | msg c0]; simpl.
      * reflexivity.
      * rewrite feed_all_settled.
        -- reflexivity.
        -- intros p Hp. simpl in *. apply (close_all_settled msg c0 p Hp).
Qed.

End PartialReads.

(** ** The small wire format is a length-delimited framing *)

Lemma SampleWire_take_app front : forall back,
  SampleWire.take (length front) (front ++ back) = Some (front, back).
Proof.
  induction front as [|b front IH]; intros back; simpl.
  - reflexivity.
  - rewrite IH. reflexivity.
Qed.

Lemma SampleWire_take_short n : forall l,
  length l < n -> SampleWire.take n l = None.
Proof.
  induction n as [|n IH]; intros l H; [lia|].
  destruct l as [|b l]; simpl; [reflexivity|].
  rewrite IH; [reflexivity | simpl in H; lia].
Qed.

Lemma SampleWire_take_length n : forall l front back,
  SampleWire.take n l = Some (front, back) -> length back <= length l.
Proof.
  induction n as [|n IH]; intros l front back H; simpl in H.
  - inversion H; subst. lia.
  - destruct l as [|b l]; [discriminate|].
    destruct (SampleWire.take n l) as [[f k]|] eqn:E; [|discriminate].
    inversion H; subst. apply IH in E. simpl. lia.
Qed.

Lemma SampleWire_byte_of n : n < 256 -> Byte.to_nat (SampleWire.byte_of n) = n.
Proof.
  intros H. unfold SampleWire.byte_of.
  destruct (Byte.of_nat n) as [b|] eqn:E.
  - apply Byte.to_of_nat. assumption.
  - apply Byte.of_nat_None_iff in E. lia.
Qed.

Lemma SampleWire_advances : reader_advances SampleWire.decodeDelimited.
Proof.
  intros buf message rest. unfold SampleWire.decodeDelimited.
  destruct buf as [|len buf]; [discriminate|].
  destruct (SampleWire.take (Byte.to_nat len) buf) as [[body back]|] eqn:E;
    [|discriminate].
  destruct (SampleWire.parseBody body); [|discriminate].
  intros H. inversion H; subst. apply SampleWire_take_length in E. simpl. lia.
Qed.

(** A message that its body determines, and whose body fits the length
    byte, is framed. *)
Lemma SampleWire_framed message :
  SampleWire.parseBody (SampleWire.encodeBody message) = Some message ->
  length (SampleWire.encodeBody message) < 256 ->
  well_framed SampleWire.decodeDelimited SampleWire.encodeDelimited message.
Proof.
  unfold well_framed, SampleWire.encodeDelimited.
  generalize (SampleWire.encodeBody message) as body. intros body Hparse Hlen.
  split; [discriminate|]. split.
  - intros rest. simpl. rewrite SampleWire_byte_of by assumption.
    rewrite SampleWire_take_app, Hparse. reflexivity.
  - intros front back Hfront Hback Hsplit.
    destruct front as [|len front]; [congruence|].
    simpl in Hsplit. inversion Hsplit as [[Hl Hbody]]. subst len.
    simpl. rewrite Hbody, SampleWire_byte_of by assumption.
    rewrite SampleWire_take_short; [reflexivity|].
    rewrite <- Hbody, length_app. destruct back; [congruence|]. simpl. lia.
Qed.

(** A client with two requests outstanding, under callback indices 0 and 1. *)
Definition sampleCommand : redis_request.Command :=
  {| redis_request.requestType := 1; redis_request.argsArray := ["GET"; "k"]%string |}.

Definition submitTo (c : Client) : Client :=
  match createWritePromise SampleWire.encodeRequest
          (OneCommand sampleCommand) None c with
  | Returned _ c' => c'
  | _ => c
  end.

Definition twoOutstanding : Client := submitTo (submitTo newClient).

(** ** C1: partial reads neither drop nor repeat a frame *)

(** C1.  For every sequence of framed response messages and every way of
    cutting their byte stream into chunks, feeding [handleReadData] the
    chunks one by one makes exactly the settlements, in the same order,
    that feeding it the whole stream at once makes.  When no frame closes
    the client and every frame answers a registered callback, the two runs
    end in the same client state altogether: the same callback slots were
    freed the same number of times and nothing is left in the read
    buffer. *)
Theorem handleReadData_chunking
    (decodeDelimited : bytes -> Decode)
    (encodeDelimited : response.Response -> bytes)
    (frames : list response.Response) (chunks : list bytes) (c : Client) :
  reader_advances decodeDelimited ->
  Forall (well_framed decodeDelimited encodeDelimited) frames ->
  remainingReadData c = None ->
  concat chunks = stream encodeDelimited frames ->
  (exists log,
      settledBy (feed decodeDelimited chunks c) = Some log
      /\ settledBy (handleReadData decodeDelimited (concat chunks) c)
         = Some log)
  /\ (Forall (plain c) frames ->
      feed decodeDelimited chunks c
      = handleReadData decodeDelimited (concat chunks) c).
Proof.
  intros Hadv Hf Hrem Hs.
  pose proof (@feed_chunks decodeDelimited encodeDelimited Hadv chunks
                frames c [] Hf Hs (or_introl eq_refl)) as Hfeed.
  pose proof (@handleReadData_stream decodeDelimited encodeDelimited
                frames c Hf Hrem) as Hwhole.
  assert (Hc : set_remainingReadData None c = c)
    by (rewrite <- Hrem; apply set_remainingReadData_same).
  simpl buffered in Hfeed. rewrite Hc in Hfeed. rewrite Hs.
  destruct (advance frames c) as [c'|r] eqn:E.
  - rewrite Hfeed, Hwhole. split; [|reflexivity].
    exists (settlements c'). auto.
  - split.
    + rewrite Hfeed, Hwhole. apply advance_Leave in E.
      destruct E; simpl; eauto.
    + intros Hp. destruct (advance_plain Hp) as [c' E']. congruence.
Qed.

Lemma handleReadData_chunking_witness :
  let frames := [SampleWire.errorFrame 0 response.Timeout "late";
                 SampleWire.okFrame 1] in
  let chunks := [[x07; x00; x03]; [x02; x6c; x61; x74; x65; x02]; [];
                 [x01; x01]] in
  feed SampleWire.decodeDelimited chunks twoOutstanding
  = handleReadData SampleWire.decodeDelimited (concat chunks) twoOutstanding
  /\ settledBy (feed SampleWire.decodeDelimited chunks twoOutstanding)
     = Some [(0, Rejected TimeoutError (Some "late"%string));
             (1, Resolved (Str "OK"))].
Proof.
  intros frames chunks.
  assert (Hf : Forall (well_framed SampleWire.decodeDelimited
                         SampleWire.encodeDelimited) frames).
  { repeat constructor;
      (apply SampleWire_framed; [reflexivity | vm_compute; lia]). }
  assert (Hp : Forall (plain twoOutstanding) frames).
  { repeat constructor; vm_compute; discriminate. }
  destruct (@handleReadData_chunking SampleWire.decodeDelimited
              SampleWire.encodeDelimited frames chunks twoOutstanding
              SampleWire_advances Hf eq_refl eq_refl) as [_ Heq].
  split; [exact (Heq Hp) | reflexivity].
Defined.

(** ** Arrays *)

Lemma array_get_set_same {A} (l : list (option A)) i v :
  array_get (array_set l i v) i = Some v.
Proof.
  unfold array_get. revert l. induction i as [|i IH]; intros [|x l]; simpl;
    try reflexivity; apply IH.
Qed.

Lemma array_get_set_other {A} (l : list (option A)) i j v :
  i <> j -> array_get (array_set l i v) j = array_get l j.
Proof.
  unfold array_get. revert l j. induction i as [|i IH]; intros [|x l] [|j] H;
    simpl; try reflexivity; try congruence.
  - destruct j; reflexivity.
  - rewrite (IH [] j) by congruence. destruct j; reflexivity.
  - apply IH. congruence.
Qed.

Lemma array_get_length {A} (l : list (option A)) i v :
  array_get l i = Some v -> i < length l.
Proof.
  unfold array_get. intros H. apply nth_error_Some.
  destruct (nth_error l i); congruence.
Qed.

(** ** The callback table along the life of a client *)

(** The part of the state that correlates requests and responses. *)
Definition correlation (c : Client) :=
  (promiseCallbackFunctions c, availableCallbackSlots c,
   issued c, settlements c).

(** Every outstanding promise sits in the slot it was issued; every free
    slot holds a settled promise, and is free once; every registered
    promise was issued under its slot; only issued promises are settled. *)
Record consistent (c : Client) : Prop := {
  owns : forall p, pending c p ->
      exists i, nth_error (issued c) p = Some i
                /\ array_get (promiseCallbackFunctions c) i = Some p;
  free_settled : forall i, In i (availableCallbackSlots c) ->
      exists q, array_get (promiseCallbackFunctions c) i = Some q
                /\ settledb q (settlements c) = true;
  free_once : NoDup (availableCallbackSlots c);
  registered_issued : forall i q,
      array_get (promiseCallbackFunctions c) i = Some q ->
      nth_error (issued c) q = Some i;
  settled_issued : forall p,
      settledb p (settlements c) = true -> p < length (issued c)
}.

Lemma consistent_ext c c' :
  correlation c = correlation c' -> consistent c -> consistent c'.
Proof.
  unfold correlation. intros H [I1 I2 I3 I4 I5]. inversion H as [[Ht Hf Hi Hs]].
  constructor; unfold pending in *; rewrite <- ?Ht, <- ?Hf, <- ?Hi, <- ?Hs;
    assumption.
Qed.

Lemma writeBufferedRequestsToSocket_correlation c :
  correlation (writeBufferedRequestsToSocket c) = correlation c.
Proof. reflexivity. Qed.

Lemma writeOrBufferRequest_correlation {T} (m : T) enc c :
  correlation (writeOrBufferRequest m enc c) = correlation c.
Proof.
  unfold writeOrBufferRequest. simpl.
  destruct (writeInProgress c); reflexivity.
Qed.

Lemma writeOrBufferRequest_isClosed {T} (m : T) enc c :
  isClosed (writeOrBufferRequest m enc c) = isClosed c.
Proof.
  unfold writeOrBufferRequest. simpl.
  destruct (writeInProgress c); reflexivity.
Qed.

Lemma socketWriteDone_correlation c :
  correlation (socketWriteDone c) = correlation c.
Proof.
  unfold socketWriteDone, writeCallback.
  destruct (socketCallbacks c); [reflexivity|]. simpl.
  destruct (0 <? length (requestWriter c)); reflexivity.
Qed.

(** What [createWritePromise] does to the callback table. *)
Lemma createWritePromise_correlation encodeRequest command route c p c' :
  createWritePromise encodeRequest command route c = Returned p c' ->
  isClosed c = false
  /\ p = length (issued c)
  /\ correlation c'
     = (array_set (promiseCallbackFunctions c) (fst (getCallbackIndex c)) p,
        availableCallbackSlots (snd (getCallbackIndex c)),
        issued c ++ [fst (getCallbackIndex c)],
        settlements c).
Proof.
  unfold createWritePromise. destruct (isClosed c); [discriminate|].
  destruct (getCallbackIndex c) as [idx c1] eqn:E.
  unfold newPromise. intros H. inversion H; subst. clear H.
  split; [reflexivity|].
  unfold getCallbackIndex in E.
  unfold writeOrBufferRedisRequest. rewrite writeOrBufferRequest_correlation.
  destruct (availableCallbackSlots c) eqn:F; inversion E; subst;
    split; reflexivity.
Qed.

Lemma pending_after_settle p o q c :
  pending (settle p o c) q -> pending c q.
Proof.
  unfold pending. rewrite settle_issued. intros [H1 H2]. split; [assumption|].
  destruct (settledb q (settlements c)) eqn:E; [|reflexivity].
  rewrite (@settle_keeps q p o c E) in H2. discriminate.
Qed.

Lemma reject_all_origin msg q l : forall c,
  settledb q (settlements (fold_left (rejectEntry msg) l c)) = true ->
  settledb q (settlements c) = true \/ In (Some q) l.
Proof.
  induction l as [|entry l IH]; intros c H; simpl in *.
  - left. assumption.
  - apply IH in H. destruct H as [H | H]; [|right; right; assumption].
    destruct entry as [p|]; simpl in H; [|left; assumption].
    unfold settle in H. destruct (settledb p (settlements c)) eqn:E.
    + left. assumption.
    + simpl in H. rewrite settledb_app in H. apply orb_true_iff in H.
      destruct H as [H | H]; [left; assumption|].
      simpl in H. rewrite orb_false_r in H. apply Nat.eqb_eq in H. subst.
      right. left. reflexivity.
Qed.

Lemma In_array_get {A} (l : list (option A)) v :
  In (Some v) l -> exists i, array_get l i = Some v.
Proof.
  intros H. apply In_nth_error in H. destruct H as [i H].
  exists i. unfold array_get. rewrite H. reflexivity.
Qed.

Section Invariant.

Variable encodeRequest : redis_request.RedisRequest -> bytes.

Lemma consistent_new : consistent newClient.
Proof.
  constructor; simpl; unfold pending; simpl.
  - intros p [H _]. lia.
  - contradiction.
  - constructor.
  - intros i q. unfold array_get. destruct i; discriminate.
  - discriminate.
Qed.

(** Registering a new promise under an index no outstanding request
    owns. *)
Lemma consistent_register c c' idx slots :
  consistent c ->
  (forall p, pending c p -> nth_error (issued c) p <> Some idx) ->
  (forall i, In i slots -> In i (availableCallbackSlots c) /\ i <> idx) ->
  NoDup slots ->
  correlation c'
  = (array_set (promiseCallbackFunctions c) idx (length (issued c)),
     slots, issued c ++ [idx], settlements c) ->
  consistent c'.
Proof.
  intros [I1 I2 I3 I4 I5] Hidx Hslots Hnd Hc.
  unfold correlation in Hc. inversion Hc as [[Ht Hf Hi Hs]].
  constructor; unfold pending; rewrite ?Ht, ?Hf, ?Hi, ?Hs.
  - intros p [Hp Hu]. rewrite length_app in Hp. simpl in Hp.
    destruct (Nat.eq_dec p (length (issued c))) as [-> | Hne].
    + exists idx. rewrite nth_error_app2, Nat.sub_diag by lia.
      split; [reflexivity | apply array_get_set_same].
    + assert (Hpend : pending c p) by (split; [lia | assumption]).
      destruct (I1 p Hpend) as (i & Hi' & Hg).
      exists i. rewrite nth_error_app1 by lia. split; [assumption|].
      rewrite array_get_set_other; [assumption|].
      intros ->. apply (Hidx p Hpend). assumption.
  - intros i Hin. destruct (Hslots i Hin) as [Hin' Hne].
    destruct (I2 i Hin') as (q & Hg & Hq). exists q.
    rewrite array_get_set_other by congruence. auto.
  - assumption.
  - intros i q Hg.
    destruct (Nat.eq_dec idx i) as [-> | Hne].
    + rewrite array_get_set_same in Hg. inversion Hg; subst.
      rewrite nth_error_app2, Nat.sub_diag by lia. reflexivity.
    + rewrite array_get_set_other in Hg by assumption.
      pose proof (I4 i q Hg) as Hq.
      rewrite nth_error_app1; [assumption|].
      apply nth_error_Some. congruence.
  - intros p Hp. apply I5 in Hp. rewrite length_app. lia.
Qed.

(** The index [getCallbackIndex] hands out is owned by no outstanding
    request. *)
Lemma getCallbackIndex_unowned c :
  consistent c ->
  forall p, pending c p ->
            nth_error (issued c) p <> Some (fst (getCallbackIndex c)).
Proof.
  intros [I1 I2 I3 I4 I5] p Hp Heq.
  destruct (I1 p Hp) as (i & Hi & Hg).
  rewrite Hi in Heq. inversion Heq; subst i. clear Heq.
  unfold getCallbackIndex in Hg.
  destruct (availableCallbackSlots c) as [|i slots] eqn:F; simpl in Hg.
  - apply array_get_length in Hg. lia.
  - destruct (I2 i) as (q & Hq & Hs); [left; reflexivity|].
    rewrite Hq in Hg. inversion Hg; subst q.
    destruct Hp as [_ Hp]. congruence.
Qed.

Lemma consistent_step c c' :
  consistent c -> step encodeRequest c c' -> consistent c'.
Proof.
  intros Hc Hstep. destruct Hstep.
  - (* connectToServer on the new client *)
    unfold connectToServer, newPromise. simpl.
    apply (@consistent_register c _ 0 [] Hc).
    + intros p Hp. destruct (owns Hc Hp) as (i & _ & Hg).
      rewrite H in Hg. unfold array_get in Hg. destruct i; discriminate.
    + contradiction.
    + constructor.
    + rewrite writeOrBufferRequest_correlation. unfold correlation. simpl.
      rewrite H0. reflexivity.
  - (* createWritePromise *)
    apply createWritePromise_correlation in H. destruct H as (_ & -> & Hcor).
    pose proof (free_once Hc) as Hnd.
    apply (@consistent_register c c' (fst (getCallbackIndex c))
             (availableCallbackSlots (snd (getCallbackIndex c))) Hc);
      [ apply getCallbackIndex_unowned; assumption | | | exact Hcor ];
      unfold getCallbackIndex;
      destruct (availableCallbackSlots c) as [|i slots] eqn:F; simpl;
      rewrite ?F.
    + contradiction.
    + inversion Hnd; subst. intros j Hj. split; [right; assumption|].
      intros ->. contradiction.
    + constructor.
    + inversion Hnd; assumption.
  - (* a response to a request not answered before *)
    destruct H as ((p & Hg) & Hfree). unfold processResponse in H0.
    destruct (response.closingError message); [discriminate|].
    rewrite Hg in H0. inversion H0; subst c'. clear H0.
    destruct Hc as [I1 I2 I3 I4 I5].
    constructor; rewrite ?settle_table, ?settle_issued;
      try (rewrite (proj1 (proj2 (settle_fields _ _ _)))); simpl.
    + intros q Hq. apply pending_after_settle in Hq. apply I1. exact Hq.
    + intros i [<- | Hin].
      * exists p. split; [assumption | apply settle_settles].
      * destruct (I2 i Hin) as (q & Hq & Hs). exists q.
        split; [assumption | apply settle_keeps; assumption].
    + constructor; assumption.
    + assumption.
    + intros q Hq. unfold settle in Hq. simpl in Hq.
      destruct (settledb p (settlements c)) eqn:E; simpl in Hq.
      * apply I5. assumption.
      * rewrite settledb_app in Hq. apply orb_true_iff in Hq.
        destruct Hq as [Hq | Hq]; [apply I5; assumption|].
        simpl in Hq. rewrite orb_false_r in Hq. apply Nat.eqb_eq in Hq.
        subst q. apply nth_error_Some. rewrite (I4 _ _ Hg). discriminate.
  - (* the read buffer *)
    eapply consistent_ext; [|exact Hc]. reflexivity.
  - (* close *)
    destruct Hc as [I1 I2 I3 I4 I5].
    pose proof (reject_all_fields errorMessage (promiseCallbackFunctions c)
                  (set_isClosed true c)) as F. simpl in F.
    destruct F as (Ft & Ff & _ & _ & _ & _ & _ & _ & _ & Fi).
    assert (Hkeep : forall q, settledb q (settlements c) = true ->
              settledb q (settlements (close errorMessage c)) = true).
    { intros q Hq. rewrite close_settlements.
      apply reject_all_keeps. assumption. }
    constructor; unfold pending; rewrite ?close_table, ?close_issued.
    + intros p [Hp Hu]. apply I1. split; [assumption|].
      destruct (settledb p (settlements c)) eqn:E; [|reflexivity].
      rewrite (Hkeep p E) in Hu. discriminate.
    + unfold close. simpl. rewrite Ff. intros i Hin.
      destruct (I2 i Hin) as (q & Hq & Hs). exists q. split; [assumption|].
      apply reject_all_keeps. assumption.
    + unfold close. simpl. rewrite Ff. assumption.
    + assumption.
    + intros p Hp. rewrite close_settlements in Hp.
      apply reject_all_origin in Hp. destruct Hp as [Hp | Hp].
      * apply I5. assumption.
      * apply In_array_get in Hp. destruct Hp as [i Hp].
        apply I4 in Hp. apply nth_error_Some. congruence.
  - (* a finished socket write *)
    eapply consistent_ext; [|exact Hc].
    symmetry. apply socketWriteDone_correlation.
Qed.

Lemma reachable_consistent c : reachable encodeRequest c -> consistent c.
Proof.
  induction 1 as [|c c' _ IH Hstep].
  - apply consistent_new.
  - eapply consistent_step; eauto.
Qed.

End Invariant.

(** *** The data listener stays within the reachable states *)

Section ReadingSteps.

Variable encodeRequest : redis_request.RedisRequest -> bytes.
Variable decodeDelimited : bytes -> Decode.
Variable encodeDelimited : response.Response -> bytes.

Definition reached (r : Result unit) : Prop :=
  match r with
  | Returned _ c => reachable encodeRequest c
  | Threw _ c => reachable encodeRequest c
  | OutOfFuel => False
  end.

Lemma advance_reachable frames : forall c,
  reachable encodeRequest c -> answering frames c ->
  match advance frames c with
  | Next c' => reachable encodeRequest c'
  | Leave r => reached r
  end.
Proof.
  induction frames as [|message frames IH]; intros c Hr Ha; simpl in *.
  - assumption.
  - destruct (processResponse message c) as [c'|r] eqn:E.
    + destruct Ha as [Hm Ha]. apply IH; [|assumption].
      eapply reachable_step; [exact Hr|].
      eapply step_response; eauto.
    + unfold processResponse in E.
      destruct (response.closingError message) as [text|].
      * inversion E; subst r. simpl.
        eapply reachable_step; [exact Hr | apply step_close].
      * destruct (array_get _ _); inversion E; subst r. exact Hr.
Qed.

Lemma answering_front done rest : forall c,
  answering (done ++ rest) c -> answering done c.
Proof.
  induction done as [|message done IH]; intros c H; simpl in *.
  - exact I.
  - destruct (processResponse message c); [|exact I].
    destruct H as [H1 H2]. split; [assumption | apply IH; assumption].
Qed.

(** One call of [handleReadData] on the next bytes of a stream of framed
    messages, each of which answers a request, is made of steps of the
    client. *)
Lemma handleReadData_reachable frames data tail c :
  reachable encodeRequest c ->
  Forall (well_framed decodeDelimited encodeDelimited) frames ->
  readBuffer data c ++ tail = stream encodeDelimited frames ->
  answering frames c ->
  reached (handleReadData decodeDelimited data c).
Proof.
  intros Hr Hf Hs Ha. unfold handleReadData.
  destruct (@readLoop_chunk decodeDelimited encodeDelimited frames
              (length (readBuffer data c)) c (readBuffer data c) tail
              Hf Hs (le_n _)) as (done & rest & Hsplit & Hrun).
  subst frames. apply answering_front in Ha.
  pose proof (advance_reachable done Hr Ha) as Hdone.
  destruct (advance done c) as [c'|r].
  - destruct Hrun as (pend & Hloop & _ & _). rewrite Hloop. simpl.
    eapply reachable_step; [exact Hdone | apply step_buffer].
  - rewrite Hrun. exact Hdone.
Qed.

End ReadingSteps.

(** ** C2: callback indices of outstanding requests *)

(** C2.  In every reachable state of the client the outstanding requests
    have pairwise distinct callback indices, each still registered in its
    own slot.  Every free index is the slot of a request that has been
    settled.  [getCallbackIndex] returns the top of the free stack, or,
    when the stack is empty, the length of the table, and the index it
    returns is owned by no outstanding request.  The stack is last in,
    first out: the index freed by a response is the next one returned. *)
Theorem callback_indices_unique
    (encodeRequest : redis_request.RedisRequest -> bytes) (c : Client) :
  reachable encodeRequest c ->
  (forall p q, pending c p -> pending c q ->
               nth_error (issued c) p = nth_error (issued c) q -> p = q)
  /\ (forall p, pending c p ->
        exists i, nth_error (issued c) p = Some i
                  /\ array_get (promiseCallbackFunctions c) i = Some p)
  /\ (forall i, In i (availableCallbackSlots c) ->
        exists q, array_get (promiseCallbackFunctions c) i = Some q
                  /\ nth_error (issued c) q = Some i
                  /\ settledb q (settlements c) = true)
  /\ ((exists slots,
          availableCallbackSlots c = fst (getCallbackIndex c) :: slots
          /\ availableCallbackSlots (snd (getCallbackIndex c)) = slots)
      \/ (availableCallbackSlots c = []
          /\ fst (getCallbackIndex c) = length (promiseCallbackFunctions c)))
  /\ (forall p, pending c p ->
        nth_error (issued c) p <> Some (fst (getCallbackIndex c)))
  /\ (forall message c',
        processResponse message c = Next c' ->
        fst (getCallbackIndex c') = response.callbackIdx message).
Proof.
  intros Hr. pose proof (reachable_consistent Hr) as Hc.
  split; [|split; [|split; [|split; [|split]]]].
  - intros p q Hp Hq Heq.
    destruct (owns Hc Hp) as (i & Hi & Hg).
    destruct (owns Hc Hq) as (j & Hj & Hg').
    rewrite Hi, Hj in Heq. inversion Heq; subst j. congruence.
  - intros p Hp. exact (owns Hc Hp).
  - intros i Hin. destruct (free_settled Hc i Hin) as (q & Hq & Hs).
    exists q. split; [assumption|]. split; [|assumption].
    exact (registered_issued Hc i Hq).
  - unfold getCallbackIndex.
    destruct (availableCallbackSlots c) as [|i slots]; simpl.
    + right. auto.
    + left. exists slots. auto.
  - apply getCallbackIndex_unowned. assumption.
  - intros message c' H. unfold processResponse in H.
    destruct (response.closingError message); [discriminate|].
    destruct (array_get _ _) as [p|]; [|discriminate].
    inversion H; subst c'. unfold getCallbackIndex.
    rewrite (proj1 (proj2 (settle_fields _ _ _))). reflexivity.
Qed.

Lemma reachable_submitTo c :
  reachable SampleWire.encodeRequest c -> isClosed c = false ->
  reachable SampleWire.encodeRequest (submitTo c).
Proof.
  intros Hr Hopen. unfold submitTo.
  destruct (createWritePromise SampleWire.encodeRequest
              (OneCommand sampleCommand) None c) as [p c'| |] eqn:E.
  - eapply reachable_step; [exact Hr|]. eapply step_submit. exact E.
  - exact Hr.
  - exact Hr.
Qed.

Lemma reachable_twoOutstanding :
  reachable SampleWire.encodeRequest twoOutstanding.
Proof.
  unfold twoOutstanding.
  apply reachable_submitTo; [apply reachable_submitTo|];
    try reflexivity. constructor.
Qed.

(** The client [twoOutstanding] after the response to its first request. *)
Definition firstAnswered : Client :=
  match processResponse (SampleWire.okFrame 0) twoOutstanding with
  | Next c => c
  | Leave _ => twoOutstanding
  end.

Lemma reachable_firstAnswered :
  reachable SampleWire.encodeRequest firstAnswered.
Proof.
  eapply reachable_step; [exact reachable_twoOutstanding|].
  apply step_response with (message := SampleWire.okFrame 0).
  - split; [exists 0; reflexivity | intros []].
  - reflexivity.
Qed.

Lemma callback_indices_unique_witness :
  fst (getCallbackIndex firstAnswered) = 0
  /\ (forall p, pending firstAnswered p ->
        nth_error (issued firstAnswered) p <> Some 0).
Proof.
  pose proof (@callback_indices_unique SampleWire.encodeRequest firstAnswered
                reachable_firstAnswered) as H.
  split; [reflexivity|]. apply H.
Defined.

(** The assumption on the peer in [step_response] is needed: a second
    response frame for a request already answered frees its slot twice,
    and the next two requests are both issued under it. *)
Definition answeredTwice : Client :=
  match processResponse (SampleWire.okFrame 0) firstAnswered with
  | Next c => c
  | Leave _ => firstAnswered
  end.

Lemma repeated_response_shares_slot :
  ~ answers firstAnswered (SampleWire.okFrame 0)
  /\ availableCallbackSlots answeredTwice = [0; 0]
  /\ pending (submitTo (submitTo answeredTwice)) 2
  /\ pending (submitTo (submitTo answeredTwice)) 3
  /\ nth_error (issued (submitTo (submitTo answeredTwice))) 2 = Some 0
  /\ nth_error (issued (submitTo (submitTo answeredTwice))) 3 = Some 0.
Proof.
  split.
  - intros [_ Hfree]. apply Hfree. left. reflexivity.
  - repeat split; vm_compute; lia.
Qed.

(** ** C4: close *)

Lemma reject_all_log msg l : forall c,
  exists added,
    settlements (fold_left (rejectEntry msg) l c) = settlements c ++ added
    /\ NoDup (map fst added)
    /\ (forall p o, In (p, o) added <->
          In (Some p) l /\ settledb p (settlements c) = false
          /\ o = Rejected ClosingError msg).
Proof.
  induction l as [|entry l IH]; intros c; simpl.
  - exists []. rewrite app_nil_r. split; [reflexivity|]. split; [constructor|].
    intros p o. simpl. tauto.
  - destruct entry as [q|]; simpl.
    + unfold settle. destruct (settledb q (settlements c)) eqn:E.
      * destruct (IH c) as (added & Hlog & Hnd & Hin).
        exists added. split; [assumption|]. split; [assumption|].
        intros p o. rewrite Hin. split.
        -- intros (H1 & H2 & H3). auto.
        -- intros ([H1 | H1] & H2 & H3); [|auto].
           inversion H1; subst. congruence.
      * destruct (IH (set_settlements
                        (settlements c ++ [(q, Rejected ClosingError msg)]) c))
          as (added & Hlog & Hnd & Hin).
        simpl in Hlog, Hin.
        exists ((q, Rejected ClosingError msg) :: added).
        split; [rewrite Hlog, <- app_assoc; reflexivity|]. split.
        -- simpl. constructor; [|assumption]. intros Hq.
           apply in_map_iff in Hq. destruct Hq as [[q' o] [Heq Hq]].
           simpl in Heq. subst q'. apply Hin in Hq.
           destruct Hq as (_ & Hq & _). rewrite settledb_app in Hq.
           simpl in Hq. rewrite Nat.eqb_refl in Hq.
           rewrite orb_true_r in Hq. discriminate.
        -- intros p o. simpl. rewrite Hin. rewrite settledb_app. simpl.
           rewrite orb_false_r. split.
           ++ intros [H | (H1 & H2 & H3)].
              ** inversion H; subst. auto.
              ** apply orb_false_iff in H2. destruct H2. auto.
           ++ intros (H1 & H2 & H3).
              destruct (Nat.eq_dec q p) as [-> | Hne].
              ** left. congruence.
              ** right. destruct H1 as [H1 | H1]; [congruence|].
                 split; [assumption|]. split; [|assumption].
                 rewrite H2. simpl. apply Nat.eqb_neq. assumption.
    + destruct (IH c) as (added & Hlog & Hnd & Hin).
      exists added. split; [assumption|]. split; [assumption|].
      intros p o. rewrite Hin. split.
      * intros (H1 & H2 & H3). auto.
      * intros ([H1 | H1] & H2 & H3); [discriminate | auto].
Qed.

Lemma pending_registered c p :
  consistent c ->
  (pending c p <->
   In (Some p) (promiseCallbackFunctions c)
   /\ settledb p (settlements c) = false).
Proof.
  intros Hc. split.
  - intros Hp. destruct (owns Hc Hp) as (i & _ & Hg).
    split; [eapply array_get_In; eauto | apply Hp].
  - intros [Hin Hu]. apply In_array_get in Hin. destruct Hin as [i Hg].
    split; [|assumption]. apply nth_error_Some.
    rewrite (registered_issued Hc i Hg). discriminate.
Qed.

(** What [close] adds to the settlements of a client whose callback table
    is consistent. *)
Lemma close_log errorMessage c :
  consistent c ->
  exists added,
    settlements (close errorMessage c) = settlements c ++ added
    /\ NoDup (map fst added)
    /\ (forall p o, In (p, o) added <->
          pending c p /\ o = Rejected ClosingError errorMessage).
Proof.
  intros Hc.
  destruct (reject_all_log errorMessage (promiseCallbackFunctions c) c)
    as (added & Hlog & Hnd & Hin).
  exists added. rewrite close_settlements.
  split; [assumption|]. split; [assumption|].
  intros p o. rewrite Hin, (pending_registered p Hc). tauto.
Qed.

(** C4.  On a reachable client, [close(errorMessage)] sets [isClosed],
    ends the socket, and adds to the settlements exactly one rejection
    for each pending promise, a [ClosingError] carrying [errorMessage];
    promises settled before keep their outcome.  Afterwards every
    [createWritePromise] throws a [ClosingError] at once and leaves the
    client as it is: no promise is created, no callback slot is taken and
    nothing is written. *)
Theorem close_rejects_pending
    (encodeRequest : redis_request.RedisRequest -> bytes)
    (errorMessage : option string) (c : Client) :
  reachable encodeRequest c ->
  isClosed (close errorMessage c) = true
  /\ socketEnded (close errorMessage c) = true
  /\ (exists added,
        settlements (close errorMessage c) = settlements c ++ added
        /\ NoDup (map fst added)
        /\ (forall p o, In (p, o) added <->
              pending c p /\ o = Rejected ClosingError errorMessage))
  /\ (forall command route,
        createWritePromise encodeRequest command route (close errorMessage c)
        = Threw (Raised ClosingError (Some closedMessage))
            (close errorMessage c)).
Proof.
  intros Hr. pose proof (reachable_consistent Hr) as Hc.
  split; [apply close_isClosed|]. split; [reflexivity|]. split.
  - apply close_log. assumption.
  - intros command route. unfold createWritePromise.
    rewrite close_isClosed. reflexivity.
Qed.

Lemma close_rejects_pending_witness :
  settlements (close (Some "bye"%string) firstAnswered)
  = [(0, Resolved (Str "OK"));
     (1, Rejected ClosingError (Some "bye"%string))]
  /\ createWritePromise SampleWire.encodeRequest (OneCommand sampleCommand)
       None (close (Some "bye"%string) firstAnswered)
     = Threw (Raised ClosingError (Some closedMessage))
         (close (Some "bye"%string) firstAnswered).
Proof.
  split; [reflexivity|].
  apply (@close_rejects_pending SampleWire.encodeRequest
           (Some "bye"%string) firstAnswered reachable_firstAnswered).
Defined.

(** ** C8: a closing error from the peer *)

(** C8.  When the first frame of the read buffer carries a
    [closing_error], [handleReadData] closes the client: [isClosed] is
    set, the socket is ended, every promise that was pending is rejected
    with a [ClosingError] carrying the frame's message, and no promise is
    pending afterwards. *)
Theorem closing_error_closes
    (encodeRequest : redis_request.RedisRequest -> bytes)
    (decodeDelimited : bytes -> Decode)
    (c : Client) (data : bytes) (message : response.Response)
    (rest : bytes) (text : string) :
  reachable encodeRequest c ->
  readBuffer data c <> [] ->
  decodeDelimited (readBuffer data c) = Decoded message rest ->
  response.closingError message = Some text ->
  exists c',
    handleReadData decodeDelimited data c = Returned tt c'
    /\ isClosed c' = true
    /\ socketEnded c' = true
    /\ (forall p, pending c p ->
          In (p, Rejected ClosingError (Some text)) (settlements c'))
    /\ (forall p, ~ pending c' p).
Proof.
  intros Hr Hbuf Hd Hclosing.
  exists (close (Some text) c). split.
  - unfold handleReadData. destruct (readBuffer data c) as [|b buf] eqn:E;
      [congruence|].
    simpl. rewrite Hd. unfold processResponse. rewrite Hclosing. reflexivity.
  - destruct (@close_log (Some text) c (reachable_consistent Hr))
      as (added & Hlog & _ & Hin).
    split; [apply close_isClosed|]. split; [reflexivity|]. split.
    + intros p Hp. rewrite Hlog. apply in_or_app. right.
      apply Hin. auto.
    + intros p Hp.
      assert (Hc' : consistent (close (Some text) c)).
      { eapply reachable_consistent.
        eapply reachable_step; [exact Hr | apply step_close]. }
      destruct (owns Hc' Hp) as (i & _ & Hg).
      apply array_get_In in Hg. apply close_all_settled in Hg.
      destruct Hp as [_ Hp]. congruence.
Qed.

Lemma closing_error_closes_witness :
  exists c',
    handleReadData SampleWire.decodeDelimited
      [x04; x00; x04; x75; x70] twoOutstanding = Returned tt c'
    /\ isClosed c' = true
    /\ socketEnded c' = true
    /\ (forall p, pending twoOutstanding p ->
          In (p, Rejected ClosingError (Some "up"%string)) (settlements c'))
    /\ (forall p, ~ pending c' p).
Proof.
  apply (@closing_error_closes SampleWire.encodeRequest
           SampleWire.decodeDelimited twoOutstanding
           [x04; x00; x04; x75; x70] (SampleWire.closingFrame "up") []
           "up"%string reachable_twoOutstanding).
  - discriminate.
  - reflexivity.
  - reflexivity.
Defined.

(** ** One response frame *)

Section OneFrame.

Variable decodeDelimited : bytes -> Decode.

Lemma readLoop_fuel :
  reader_advances decodeDelimited ->
  forall fuel fuel' c buf,
    length buf <= fuel -> length buf <= fuel' ->
    readLoop decodeDelimited fuel c buf
    = readLoop decodeDelimited fuel' c buf.
Proof.
  intros Hadv. induction fuel as [|fuel IH]; intros fuel' c buf H H'.
  - destruct buf; [|simpl in H; lia]. destruct fuel'; reflexivity.
  - destruct buf as [|b buf]; [destruct fuel'; reflexivity|].
    destruct fuel' as [|fuel']; [simpl in H'; lia|].
    simpl. destruct (decodeDelimited (b :: buf)) as [m rest| |] eqn:Hd;
      try reflexivity.
    destruct (processResponse m c); [|reflexivity].
    apply Hadv in Hd. simpl in *. apply IH; lia.
Qed.

(** The client after the round of a response to the promise [p]. *)
Definition answered (message : response.Response) (p : PromiseId)
    (c : Client) : Client :=
  settle p (outcomeOf message)
    (set_availableCallbackSlots
       (response.callbackIdx message :: availableCallbackSlots c) c).

(** A frame at the front of a chunk that answers a registered callback:
    its round is made, and the loop goes on with the rest of the
    chunk. *)
Lemma handleReadData_frame c data message rest p :
  reader_advances decodeDelimited ->
  remainingReadData c = None ->
  data <> [] ->
  decodeDelimited data = Decoded message rest ->
  response.closingError message = None ->
  array_get (promiseCallbackFunctions c) (response.callbackIdx message)
  = Some p ->
  handleReadData decodeDelimited data c
  = handleReadData decodeDelimited rest (answered message p c).
Proof.
  intros Hadv Hrem Hdata Hd Hclosing Hp.
  assert (Hrem' : remainingReadData (answered message p c) = None).
  { unfold answered.
    rewrite (proj1 (proj2 (proj2 (proj2 (proj2 (settle_fields _ _ _)))))).
    exact Hrem. }
  unfold handleReadData, readBuffer. rewrite Hrem, Hrem'.
  destruct data as [|b data]; [congruence|].
  simpl. rewrite Hd. unfold processResponse. rewrite Hclosing, Hp.
  apply readLoop_fuel; [assumption| |apply le_n].
  apply Hadv in Hd. simpl in Hd. lia.
Qed.


End OneFrame.

(** ** What a call of [handleReadData] leaves alone *)

Lemma close_others msg c :
  promiseCallbackFunctions (close msg c) = promiseCallbackFunctions c
  /\ issued (close msg c) = issued c
  /\ requestWriter (close msg c) = requestWriter c
  /\ writeInProgress (close msg c) = writeInProgress c
  /\ socketWritten (close msg c) = socketWritten c
  /\ socketCallbacks (close msg c) = socketCallbacks c
  /\ exists added, settlements (close msg c) = settlements c ++ added.
Proof.
  pose proof (reject_all_fields msg (promiseCallbackFunctions c)
                (set_isClosed true c)) as F.
  simpl in F. unfold close. simpl.
  destruct F as (F1 & _ & F3 & F4 & _ & _ & F7 & F8 & _ & F10).
  repeat (split; [assumption|]).
  destruct (reject_all_log msg (promiseCallbackFunctions c)
              (set_isClosed true c)) as (added & Hlog & _).
  exists added. exact Hlog.
Qed.

(** What a call of [handleReadData] leaves alone. *)
Definition reads_only (c : Client) (r : Result unit) : Prop :=
  match r with
  | Returned _ c' | Threw _ c' =>
      promiseCallbackFunctions c' = promiseCallbackFunctions c
      /\ issued c' = issued c
      /\ requestWriter c' = requestWriter c
      /\ writeInProgress c' = writeInProgress c
      /\ socketWritten c' = socketWritten c
      /\ socketCallbacks c' = socketCallbacks c
      /\ exists added, settlements c' = settlements c ++ added
  | OutOfFuel => True
  end.

Lemma readLoop_reads_only decodeDelimited : forall fuel c buf,
  reads_only c (readLoop decodeDelimited fuel c buf).
Proof.
  induction fuel as [|fuel IH]; intros c buf.
  - destruct buf; simpl; [|exact I].
    repeat (split; [reflexivity|]). exists []. symmetry. apply app_nil_r.
  - destruct buf as [|b buf]; simpl.
    + repeat (split; [reflexivity|]). exists []. symmetry. apply app_nil_r.
    + destruct (decodeDelimited (b :: buf)) as [message rest| |err].
      * unfold processResponse.
        destruct (response.closingError message) as [text|].
        -- apply close_others.
        -- destruct (array_get (promiseCallbackFunctions c)
                       (response.callbackIdx message)) as [p|].
           ++ specialize (IH (answered message p c) rest).
              fold (answered message p c).
              destruct (readLoop decodeDelimited fuel (answered message p c)
                          rest) as [u c'|e c'|]; simpl in *; try exact I;
                unfold answered in IH;
                pose proof (settle_fields p (outcomeOf message)
                              (set_availableCallbackSlots
                                 (response.callbackIdx message
                                    :: availableCallbackSlots c) c)) as F;
                simpl in F;
                destruct F as (F1 & _ & F3 & F4 & _ & _ & F7 & F8 & _ & F10);
                destruct IH as (I1 & I2 & I3 & I4 & I5 & I6 & added & I7);
                (repeat (split; [congruence|]));
                unfold settle in I7; simpl in I7;
                destruct (settledb p (settlements c)); simpl in I7.
              ** exists added. exact I7.
              ** eexists. rewrite I7, <- app_assoc. reflexivity.
              ** exists added. exact I7.
              ** eexists. rewrite I7, <- app_assoc. reflexivity.
           ++ simpl. repeat (split; [reflexivity|]).
              exists []. symmetry. apply app_nil_r.
      * simpl. repeat (split; [reflexivity|]).
        exists []. symmetry. apply app_nil_r.
      * apply close_others.
Qed.

Lemma readLoop_returns decodeDelimited :
  reader_advances decodeDelimited ->
  forall fuel c buf,
    length buf <= fuel -> readLoop decodeDelimited fuel c buf <> OutOfFuel.
Proof.
  intros Hadv. induction fuel as [|fuel IH]; intros c buf Hlen.
  - destruct buf; [discriminate | simpl in Hlen; lia].
  - destruct buf as [|b buf]; simpl; [discriminate|].
    destruct (decodeDelimited (b :: buf)) as [message rest| |err] eqn:Hd;
      try discriminate.
    unfold processResponse.
    destruct (response.closingError message); [discriminate|].
    destruct (array_get _ _); [|discriminate].
    apply IH. apply Hadv in Hd. simpl in *. lia.
Qed.

(** The free stack only gets new indices on top. *)
Lemma readLoop_slots decodeDelimited : forall fuel c buf,
  match readLoop decodeDelimited fuel c buf with
  | Returned _ c' | Threw _ c' =>
      exists later,
        availableCallbackSlots c' = later ++ availableCallbackSlots c
  | OutOfFuel => True
  end.
Proof.
  induction fuel as [|fuel IH]; intros c buf.
  - destruct buf; simpl; [exists []; reflexivity | exact I].
  - destruct buf as [|b buf]; simpl; [exists []; reflexivity|].
    destruct (decodeDelimited (b :: buf)) as [message rest| |err].
    + unfold processResponse.
      destruct (response.closingError message) as [text|].
      * exists []. simpl.
        apply (reject_all_fields (Some text) (promiseCallbackFunctions c)
                 (set_isClosed true c)).
      * destruct (array_get (promiseCallbackFunctions c)
                    (response.callbackIdx message)) as [p|];
          [|exists []; reflexivity].
        specialize (IH (settle p (outcomeOf message)
                          (set_availableCallbackSlots
                             (response.callbackIdx message
                                :: availableCallbackSlots c) c)) rest).
        rewrite (proj1 (proj2 (settle_fields _ _ _))) in IH. simpl in IH.
        destruct (readLoop decodeDelimited fuel _ rest) as [u c'|e c'|];
          try exact I; destruct IH as [later IH];
          exists (later ++ [response.callbackIdx message]);
          rewrite IH, <- app_assoc; reflexivity.
    + exists []. reflexivity.
    + exists []. simpl.
      apply (reject_all_fields
               (Some ("Failed to decode the response: " ++ err)%string)
               (promiseCallbackFunctions c) (set_isClosed true c)).
Qed.

(** The result of [handleReadData] on a chunk whose first frame answers a
    registered callback: the call ends, by returning or with an exception
    of a later frame; the round of the first frame has been made, and what
    the later frames did comes after it.  When the frame is the whole
    chunk, the result is the client after that round. *)
Lemma handleReadData_frame_result decodeDelimited c data message rest p :
  reader_advances decodeDelimited ->
  remainingReadData c = None ->
  data <> [] ->
  decodeDelimited data = Decoded message rest ->
  response.closingError message = None ->
  array_get (promiseCallbackFunctions c) (response.callbackIdx message)
  = Some p ->
  exists c',
    (handleReadData decodeDelimited data c = Returned tt c'
     \/ exists e, handleReadData decodeDelimited data c = Threw e c')
    /\ (exists more,
          settlements c' = settlements (answered message p c) ++ more)
    /\ (exists later,
          availableCallbackSlots c'
          = later ++ availableCallbackSlots (answered message p c))
    /\ (rest = [] ->
        handleReadData decodeDelimited data c
        = Returned tt (answered message p c)
        /\ c' = answered message p c).
Proof.
  intros Hadv Hrem Hdata Hd Hclosing Hp.
  rewrite (@handleReadData_frame decodeDelimited c data message rest p
             Hadv Hrem Hdata Hd Hclosing Hp).
  assert (Hrem' : remainingReadData (answered message p c) = None).
  { unfold answered.
    rewrite (proj1 (proj2 (proj2 (proj2 (proj2 (settle_fields _ _ _)))))).
    exact Hrem. }
  unfold handleReadData, readBuffer. rewrite Hrem'.
  pose proof (readLoop_reads_only decodeDelimited (length rest)
                (answered message p c) rest) as Hro.
  pose proof (readLoop_slots decodeDelimited (length rest)
                (answered message p c) rest) as Hsl.
  pose proof (@readLoop_returns decodeDelimited Hadv (length rest)
                (answered message p c) rest (le_n _)) as Hret.
  assert (Hlast : rest = [] ->
            readLoop decodeDelimited (length rest) (answered message p c) rest
            = Returned tt (answered message p c)).
  { intros ->. simpl. rewrite <- Hrem' at 1.
    rewrite set_remainingReadData_same. reflexivity. }
  destruct (readLoop decodeDelimited (length rest) (answered message p c) rest)
    as [u c'|e c'|]; [destruct u| |congruence].
  - exists c'. split; [left; reflexivity|].
    destruct Hro as (_ & _ & _ & _ & _ & _ & Hmore).
    split; [exact Hmore|]. split; [exact Hsl|].
    intros Hrest. specialize (Hlast Hrest). inversion Hlast. auto.
  - exists c'. split; [right; exists e; reflexivity|].
    destruct Hro as (_ & _ & _ & _ & _ & _ & Hmore).
    split; [exact Hmore|]. split; [exact Hsl|].
    intros Hrest. specialize (Hlast Hrest). discriminate.
Qed.

(** A frame at the front of a chunk that answers a registered, pending
    callback: [handleReadData] ends, the promise has been settled with the
    outcome of the frame right after the settlements made before, and the
    callback index has been pushed on the free stack; later frames of the
    chunk only add after that. *)
Lemma frame_settles decodeDelimited c data message rest p :
  reader_advances decodeDelimited ->
  remainingReadData c = None ->
  data <> [] ->
  decodeDelimited data = Decoded message rest ->
  response.closingError message = None ->
  array_get (promiseCallbackFunctions c) (response.callbackIdx message)
  = Some p ->
  settledb p (settlements c) = false ->
  (exists c',
      (handleReadData decodeDelimited data c = Returned tt c'
       \/ exists exn, handleReadData decodeDelimited data c = Threw exn c')
      /\ (exists more,
            settlements c'
            = settlements c ++ (p, outcomeOf message) :: more)
      /\ (exists later,
            availableCallbackSlots c'
            = later ++ response.callbackIdx message
                         :: availableCallbackSlots c)
      /\ (rest = [] ->
          handleReadData decodeDelimited data c = Returned tt c'
          /\ settlements c' = settlements c ++ [(p, outcomeOf message)]
          /\ availableCallbackSlots c'
             = response.callbackIdx message :: availableCallbackSlots c))
  /\ (exists c1,
        handleReadData decodeDelimited data c
        = handleReadData decodeDelimited rest c1
        /\ settlements c1 = settlements c ++ [(p, outcomeOf message)]
        /\ availableCallbackSlots c1
           = response.callbackIdx message :: availableCallbackSlots c).
Proof.
  intros Hadv Hrem Hdata Hd Hclosing Hp Hu.
  assert (Hs : settlements (answered message p c)
               = settlements c ++ [(p, outcomeOf message)]).
  { unfold answered. rewrite settle_fresh by exact Hu. reflexivity. }
  assert (Hf : availableCallbackSlots (answered message p c)
               = response.callbackIdx message :: availableCallbackSlots c).
  { unfold answered. rewrite (proj1 (proj2 (settle_fields _ _ _))).
    reflexivity. }
  split.
  - destruct (@handleReadData_frame_result decodeDelimited c data message
                rest p Hadv Hrem Hdata Hd Hclosing Hp)
      as (c' & Hres & (more & Hmore) & (later & Hlater) & Hlast).
    exists c'. split; [exact Hres|]. split; [|split].
    + exists more. rewrite Hmore, Hs, <- app_assoc. reflexivity.
    + exists later. rewrite Hlater, Hf. reflexivity.
    + intros Hrest. destruct (Hlast Hrest) as [H1 H2]. subst c'.
      auto.
  - exists (answered message p c). split; [|auto].
    apply handleReadData_frame; assumption.
Qed.

(** ** C7: request errors *)

(** C7.  A response frame that carries a [request_error] rejects the
    pending promise registered under its callback index with the error
    class of the error's kind and with the error's message as it came;
    the callback index is freed.  [handleReadData] ends with that
    rejection made, first after the settlements made before; when the
    frame is the whole chunk it returns with exactly that rejection
    added.  [Disconnect] gives [ConnectionError], [ExecAbort] gives
    [ExecAbortError], [Timeout] gives [TimeoutError], and every other
    kind, [Unspecified] and a missing kind included, gives
    [RequestError]. *)
Theorem request_error_rejects
    (decodeDelimited : bytes -> Decode) (c : Client) (data rest : bytes)
    (message : response.Response) (e : response.RequestError)
    (p : PromiseId) :
  reader_advances decodeDelimited ->
  remainingReadData c = None ->
  data <> [] ->
  decodeDelimited data = Decoded message rest ->
  response.closingError message = None ->
  response.requestError message = Some e ->
  array_get (promiseCallbackFunctions c) (response.callbackIdx message)
  = Some p ->
  settledb p (settlements c) = false ->
  (exists c',
      (handleReadData decodeDelimited data c = Returned tt c'
       \/ exists exn, handleReadData decodeDelimited data c = Threw exn c')
      /\ (exists more,
            settlements c'
            = settlements c
              ++ (p, Rejected (getRequestErrorClass (response.type e))
                       (response.message e)) :: more)
      /\ (exists later,
            availableCallbackSlots c'
            = later ++ response.callbackIdx message
                         :: availableCallbackSlots c)
      /\ (rest = [] ->
          handleReadData decodeDelimited data c = Returned tt c'
          /\ settlements c'
             = settlements c
               ++ [(p, Rejected (getRequestErrorClass (response.type e))
                         (response.message e))]
          /\ availableCallbackSlots c'
             = response.callbackIdx message :: availableCallbackSlots c))
  /\ (exists c1,
        handleReadData decodeDelimited data c
        = handleReadData decodeDelimited rest c1
        /\ settlements c1
           = settlements c
             ++ [(p, Rejected (getRequestErrorClass (response.type e))
                       (response.message e))]
        /\ availableCallbackSlots c1
           = response.callbackIdx message :: availableCallbackSlots c)
  /\ getRequestErrorClass (Some response.Disconnect) = ConnectionError
  /\ getRequestErrorClass (Some response.ExecAbort) = ExecAbortError
  /\ getRequestErrorClass (Some response.Timeout) = TimeoutError
  /\ (forall kind,
        kind <> Some response.Disconnect ->
        kind <> Some response.ExecAbort ->
        kind <> Some response.Timeout ->
        getRequestErrorClass kind = RequestError).
Proof.
  intros Hadv Hrem Hdata Hd Hclosing He Hp Hu.
  assert (Ho : outcomeOf message
               = Rejected (getRequestErrorClass (response.type e))
                   (response.message e)).
  { unfold outcomeOf. rewrite He. reflexivity. }
  rewrite <- Ho.
  destruct (@frame_settles decodeDelimited c data message rest p
              Hadv Hrem Hdata Hd Hclosing Hp Hu) as [H1 H2].
  split; [exact H1|]. split; [exact H2|]. repeat split.
  intros [[| | | |n]|] K1 K2 K3; try reflexivity; congruence.
Qed.

Lemma request_error_rejects_witness :
  exists c',
    handleReadData SampleWire.decodeDelimited
      [x05; x01; x03; x03; x6e; x6f] twoOutstanding
    = Returned tt c'
    /\ settlements c'
       = [(1, Rejected ConnectionError (Some "no"%string))]
    /\ availableCallbackSlots c' = [1].
Proof.
  destruct (@request_error_rejects SampleWire.decodeDelimited twoOutstanding
              [x05; x01; x03; x03; x6e; x6f] []
              (SampleWire.errorFrame 1 response.Disconnect "no")
              {| response.type := Some response.Disconnect;
                 response.message := Some "no"%string |} 1
              SampleWire_advances eq_refl ltac:(discriminate)
              eq_refl eq_refl eq_refl eq_refl eq_refl)
    as [(c' & _ & _ & _ & Hlast) _].
  exists c'. exact (Hlast eq_refl).
Defined.

(** ** C10: a response without a value *)

(** C10.  A response frame for a registered, pending callback that carries
    no [closing_error], no [request_error] and no [resp_pointer], and
    whose constant response is not [OK], resolves the promise with [null];
    its callback index goes on top of the free stack.  [handleReadData]
    ends with that resolution made, first after the settlements made
    before; when the frame is the whole chunk it returns with exactly that
    resolution added and the index as the next one handed out. *)
Theorem null_response_resolves
    (decodeDelimited : bytes -> Decode) (c : Client) (data rest : bytes)
    (message : response.Response) (p : PromiseId) :
  reader_advances decodeDelimited ->
  remainingReadData c = None ->
  data <> [] ->
  decodeDelimited data = Decoded message rest ->
  response.closingError message = None ->
  response.requestError message = None ->
  response.respPointer message = None ->
  response.constantResponse message <> Some response.OK ->
  array_get (promiseCallbackFunctions c) (response.callbackIdx message)
  = Some p ->
  settledb p (settlements c) = false ->
  (exists c',
      (handleReadData decodeDelimited data c = Returned tt c'
       \/ exists exn, handleReadData decodeDelimited data c = Threw exn c')
      /\ (exists more,
            settlements c' = settlements c ++ (p, Resolved Null) :: more)
      /\ (exists later,
            availableCallbackSlots c'
            = later ++ response.callbackIdx message
                         :: availableCallbackSlots c)
      /\ (rest = [] ->
          handleReadData decodeDelimited data c = Returned tt c'
          /\ settlements c' = settlements c ++ [(p, Resolved Null)]
          /\ availableCallbackSlots c'
             = response.callbackIdx message :: availableCallbackSlots c
          /\ fst (getCallbackIndex c') = response.callbackIdx message))
  /\ (exists c1,
        handleReadData decodeDelimited data c
        = handleReadData decodeDelimited rest c1
        /\ settlements c1 = settlements c ++ [(p, Resolved Null)]
        /\ availableCallbackSlots c1
           = response.callbackIdx message :: availableCallbackSlots c
        /\ fst (getCallbackIndex c1) = response.callbackIdx message).
Proof.
  intros Hadv Hrem Hdata Hd Hclosing He Hptr Hconst Hp Hu.
  assert (Ho : outcomeOf message = Resolved Null).
  { unfold outcomeOf. rewrite He, Hptr.
    destruct (response.constantResponse message) as [[|n]|];
      try reflexivity; congruence. }
  rewrite <- Ho.
  destruct (@frame_settles decodeDelimited c data message rest p
              Hadv Hrem Hdata Hd Hclosing Hp Hu)
    as [(c' & Hres & Hmore & Hlater & Hlast) (c1 & K1 & K2 & K3)].
  split.
  - exists c'. split; [exact Hres|]. split; [exact Hmore|].
    split; [exact Hlater|]. intros Hrest.
    destruct (Hlast Hrest) as (L1 & L2 & L3).
    repeat (split; [assumption|]).
    unfold getCallbackIndex. rewrite L3. reflexivity.
  - exists c1. repeat (split; [assumption|]).
    unfold getCallbackIndex. rewrite K3. reflexivity.
Qed.

Lemma null_response_resolves_witness :
  exists c',
    handleReadData SampleWire.decodeDelimited [x02; x00; x00] twoOutstanding
    = Returned tt c'
    /\ settlements c' = [(0, Resolved Null)]
    /\ availableCallbackSlots c' = [0]
    /\ fst (getCallbackIndex c') = 0.
Proof.
  destruct (@null_response_resolves SampleWire.decodeDelimited twoOutstanding
              [x02; x00; x00] [] (SampleWire.nullFrame 0) 0
              SampleWire_advances eq_refl ltac:(discriminate)
              eq_refl eq_refl eq_refl eq_refl ltac:(discriminate)
              eq_refl eq_refl)
    as [(c' & _ & _ & _ & Hlast) _].
  exists c'. exact (Hlast eq_refl).
Defined.

(** ** C3: a response for an unknown callback index *)




(** ** C6: routes *)

(** The routes other than slot-id routes carry their own data. *)
Lemma toProtobufRoute_other_routes :
  toProtobufRoute None = None
  /\ toProtobufRoute (Some allPrimaries)
     = Some (Routes_create (Some redis_request.AllPrimaries) None None)
  /\ toProtobufRoute (Some allNodes)
     = Some (Routes_create (Some redis_request.AllNodes) None None)
  /\ toProtobufRoute (Some (SingleNode randomNode))
     = Some (Routes_create (Some redis_request.Random) None None)
  /\ (forall type key,
        toProtobufRoute (Some (SingleNode (SlotKeyTypes type key)))
        = Some (Routes_create None
                  (Some (redis_request.OfSlotKeyRoute
                           {| redis_request.slotKey_slotType :=
                                match type with
                                | primarySlotKey => redis_request.Primary
                                | replicaSlotKey => redis_request.Replica
                                end;
                              redis_request.slotKey := key |}))
                  None)).
Proof. repeat split. intros [|] key; reflexivity. Qed.

(** C6.  For a slot-id route, [toProtobufRoute] builds the [SlotIdRoute]
    with the slot id and the slot type, but stores it in the
    [slotKeyRoute] field of the [Routes] message: the slot-id route field
    stays empty. *)
Theorem toProtobufRoute_slot_id (type : SlotIdType) (id : nat) :
  exists r,
    toProtobufRoute (Some (SingleNode (SlotIdTypes type id))) = Some r
    /\ redis_request.slotIdRoute r = None
    /\ redis_request.simpleRoutes r = None
    /\ redis_request.slotKeyRoute r
       = Some (redis_request.OfSlotIdRoute
                 {| redis_request.slotId_slotType :=
                      match type with
                      | primarySlotId => redis_request.Primary
                      | replicaSlotId => redis_request.Replica
                      end;
                    redis_request.slotId := id |}).
Proof. destruct type; eexists; repeat split. Qed.

(** ** The write path *)

(** The writer is idle or has exactly one write on the socket; bytes wait
    in the writer only while a write is on the socket. *)
Definition writer_ok (c : Client) : Prop :=
  socketCallbacks c = (if writeInProgress c then 1 else 0)
  /\ (writeInProgress c = false -> requestWriter c = []).

(** All the bytes handed to the client so far: those passed to the socket,
    then those waiting in the writer. *)
Definition outgoing (c : Client) : bytes :=
  concat (socketWritten c) ++ requestWriter c.

Lemma writeOrBufferRequest_outgoing {T} (m : T) enc c :
  outgoing (writeOrBufferRequest m enc c) = outgoing c ++ enc m.
Proof.
  unfold writeOrBufferRequest, outgoing. simpl.
  destruct (writeInProgress c); simpl.
  - rewrite app_assoc. reflexivity.
  - rewrite concat_app. simpl. rewrite !app_nil_r, app_assoc. reflexivity.
Qed.

Lemma writeOrBufferRequest_writer_ok {T} (m : T) enc c :
  writer_ok c -> writer_ok (writeOrBufferRequest m enc c).
Proof.
  unfold writer_ok, writeOrBufferRequest. simpl. intros [H1 H2].
  destruct (writeInProgress c) eqn:W; simpl; rewrite ?W.
  - split; [assumption | discriminate].
  - rewrite H1. split; [reflexivity | discriminate].
Qed.

Lemma socketWriteDone_outgoing c : outgoing (socketWriteDone c) = outgoing c.
Proof.
  unfold socketWriteDone, writeCallback, outgoing.
  destruct (socketCallbacks c); [reflexivity|]. simpl.
  destruct (requestWriter c) as [|b w] eqn:E; simpl; rewrite ?E.
  - reflexivity.
  - rewrite concat_app. simpl. rewrite !app_nil_r. reflexivity.
Qed.

Lemma socketWriteDone_writer_ok c :
  writer_ok c -> writer_ok (socketWriteDone c).
Proof.
  unfold writer_ok, socketWriteDone, writeCallback. intros [H1 H2].
  destruct (socketCallbacks c) as [|n] eqn:S.
  - rewrite S. auto.
  - destruct (writeInProgress c) eqn:W; [|discriminate].
    inversion H1; subst n. simpl.
    destruct (requestWriter c) as [|b w] eqn:E; simpl.
    + split; [reflexivity | intros _; exact E].
    + split; [reflexivity | discriminate].
Qed.

Lemma run_writer events : forall c,
  writer_ok c ->
  writer_ok (run events c)
  /\ outgoing (run events c) = outgoing c ++ submitted events.
Proof.
  induction events as [|e events IH]; intros c Hc.
  - simpl. rewrite app_nil_r. auto.
  - change (run (e :: events) c) with (run events (perform c e)).
    assert (He : writer_ok (perform c e)
                 /\ outgoing (perform c e)
                    = outgoing c ++ submitted [e]).
    { destruct e as [request|]; simpl; rewrite ?app_nil_r.
      - split; [apply writeOrBufferRequest_writer_ok; assumption|].
        apply writeOrBufferRequest_outgoing.
      - split; [apply socketWriteDone_writer_ok; assumption|].
        apply socketWriteDone_outgoing. }
    destruct He as [He1 He2]. destruct (IH _ He1) as [H1 H2].
    split; [assumption|]. rewrite H2, He2, <- app_assoc.
    change (e :: events) with ([e] ++ events).
    unfold submitted. rewrite flat_map_app. reflexivity.
Qed.

(** ** C5: requests go out in submission order *)

(** C5.  After any sequence of submissions and finished socket writes on a
    new client, the bytes passed to the socket followed by the bytes
    waiting in the writer are exactly the submitted requests in
    submission order; at most one write is on the socket, and exactly one
    while [writeInProgress] is set; bytes wait only while a write is on the
    socket; and a request submitted during a write goes out, after
    everything that was waiting before it, in the one write that follows
    the end of the current one. *)
Theorem writes_in_submission_order (events : list WriterEvent) :
  outgoing (run events newClient) = submitted events
  /\ socketCallbacks (run events newClient)
     = (if writeInProgress (run events newClient) then 1 else 0)
  /\ (writeInProgress (run events newClient) = false ->
      requestWriter (run events newClient) = [])
  /\ (forall request,
        writeInProgress (run events newClient) = true ->
        requestWriter (run events newClient) ++ request <> [] ->
        socketWritten (run (events ++ [Submit request]) newClient)
        = socketWritten (run events newClient)
        /\ socketWritten (run (events ++ [Submit request; WriteDone]) newClient)
           = socketWritten (run events newClient)
             ++ [requestWriter (run events newClient) ++ request]).
Proof.
  assert (Hnew : writer_ok newClient) by (split; reflexivity).
  destruct (run_writer events Hnew) as [[H1 H2] H3].
  split; [exact H3|]. split; [exact H1|]. split; [exact H2|].
  intros request Hw Hne. unfold run. rewrite !fold_left_app.
  fold (run events newClient).
  set (c := run events newClient) in *.
  simpl. unfold writeOrBufferRequest. simpl. rewrite Hw. simpl.
  split; [reflexivity|].
  unfold socketWriteDone. simpl. rewrite H1, Hw. simpl.
  unfold writeCallback. simpl.
  destruct (requestWriter c ++ request); [congruence | reflexivity].
Qed.

Lemma writes_in_submission_order_witness :
  let events := [Submit [x01; x00]; Submit [x01; x01]; Submit [x01; x02]] in
  outgoing (run events newClient) = [x01; x00; x01; x01; x01; x02]
  /\ socketWritten (run (events ++ [Submit [x01; x03]; WriteDone]) newClient)
     = [[x01; x00]; [x01; x01; x01; x02; x01; x03]].
Proof.
  intros events.
  destruct (writes_in_submission_order events) as (H1 & _ & _ & H4).
  split; [exact H1|].
  destruct (H4 [x01; x03] eq_refl ltac:(discriminate)) as [_ H].
  exact H.
Defined.

Lemma writeOrBufferRequest_table {T} (m : T) enc c :
  promiseCallbackFunctions (writeOrBufferRequest m enc c)
  = promiseCallbackFunctions c.
Proof.
  unfold writeOrBufferRequest. simpl. destruct (writeInProgress c); reflexivity.
Qed.

Lemma writeOrBufferRequest_issued {T} (m : T) enc c :
  issued (writeOrBufferRequest m enc c) = issued c.
Proof.
  unfold writeOrBufferRequest. simpl. destruct (writeInProgress c); reflexivity.
Qed.

(** ** C9: a transaction is one request *)

(** On an open client, [exec] creates one promise and registers it
    under one callback index; it appends to the outgoing bytes the
    encoding of a single [RedisRequest] with that callback index, whose
    body is a [Transaction] holding the commands in the order given, and
    whose route is the protobuf form of the route argument.  When no write
    is on the socket the request goes out at once in one [socket.write];
    otherwise it waits in the writer. *)
Theorem exec_single_request
    (encodeRequest : redis_request.RedisRequest -> bytes)
    (commands : list redis_request.Command)
    (route : option SingleNodeRoute) (c : Client) :
  isClosed c = false ->
  let request :=
    {| redis_request.callbackIdx := fst (getCallbackIndex c);
       redis_request.body :=
         redis_request.transaction {| redis_request.commands := commands |};
       redis_request.route := toProtobufRoute (option_map SingleNode route) |}
  in
  exists c',
    exec encodeRequest commands route c = Returned (length (issued c)) c'
    /\ array_get (promiseCallbackFunctions c') (fst (getCallbackIndex c))
       = Some (length (issued c))
    /\ issued c' = issued c ++ [fst (getCallbackIndex c)]
    /\ outgoing c' = outgoing c ++ encodeRequest request
    /\ (writeInProgress c = false ->
        socketWritten c'
        = socketWritten c ++ [requestWriter c ++ encodeRequest request]
        /\ requestWriter c' = [])
    /\ (writeInProgress c = true ->
        socketWritten c' = socketWritten c
        /\ requestWriter c' = requestWriter c ++ encodeRequest request).
Proof.
  intros Hopen request. unfold exec, createWritePromise. rewrite Hopen.
  destruct (getCallbackIndex c) as [idx c1] eqn:E.
  assert (Hc1 : issued c1 = issued c
                /\ promiseCallbackFunctions c1 = promiseCallbackFunctions c
                /\ outgoing c1 = outgoing c
                /\ writeInProgress c1 = writeInProgress c
                /\ socketWritten c1 = socketWritten c
                /\ requestWriter c1 = requestWriter c).
  { unfold getCallbackIndex in E.
    destruct (availableCallbackSlots c); inversion E; repeat split. }
  destruct Hc1 as (Hi & Ht & Ho & Hw & Hs & Hr).
  unfold newPromise. rewrite Hi. simpl fst in *.
  eexists. split; [reflexivity|].
  unfold writeOrBufferRedisRequest.
  change (set_route (toProtobufRoute (option_map SingleNode route))
            (RedisRequest_create idx (CommandArray commands)))
    with request.
  split; [|split; [|split; [|split]]].
  - rewrite writeOrBufferRequest_table. simpl. apply array_get_set_same.
  - rewrite writeOrBufferRequest_issued. reflexivity.
  - rewrite writeOrBufferRequest_outgoing. unfold outgoing in *. simpl.
    rewrite Hs, Hr. reflexivity.
  - intros Hidle. unfold writeOrBufferRequest. simpl.
    rewrite Hw, Hidle. simpl. rewrite Hs, Hr. auto.
  - intros Hbusy. unfold writeOrBufferRequest. simpl.
    rewrite Hw, Hbusy. simpl. rewrite Hs, Hr. auto.
Qed.

Lemma exec_single_request_witness :
  exists c',
    exec SampleWire.encodeRequest [sampleCommand; sampleCommand]
      (Some (SlotKeyTypes primarySlotKey "k")) firstAnswered
    = Returned 2 c'
    /\ array_get (promiseCallbackFunctions c') 0 = Some 2
    /\ socketWritten c' = socketWritten firstAnswered
    /\ requestWriter c' = [x01; x01; x01; x00].
Proof.
  destruct (@exec_single_request SampleWire.encodeRequest
              [sampleCommand; sampleCommand]
              (Some (SlotKeyTypes primarySlotKey "k")) firstAnswered eq_refl)
    as (c' & H1 & H2 & _ & _ & _ & H6).
  exists c'. split; [exact H1|]. split; [exact H2|].
  exact (H6 eq_refl).
Defined.


(** An encoder of requests that writes out the callback index, the body
    and every field of the route. *)
Module RoutedWire.

Definition slotTypeByte (t : redis_request.SlotTypes) : byte :=
  match t with
  | redis_request.Primary => x00
  | redis_request.Replica => x01
  end.

Definition objectBytes (o : option redis_request.RouteObject) : bytes :=
  match o with
  | None => [x00]
  | Some (redis_request.OfSlotKeyRoute r) =>
      x01 :: slotTypeByte (redis_request.slotKey_slotType r)
          :: SampleWire.byte_of (String.length (redis_request.slotKey r))
          :: list_byte_of_string (redis_request.slotKey r)
  | Some (redis_request.OfSlotIdRoute r) =>
      [x02; slotTypeByte (redis_request.slotId_slotType r);
       SampleWire.byte_of (redis_request.slotId r)]
  end.

Definition routeBytes (r : option redis_request.Routes) : bytes :=
  match r with
  | None => [x00]
  | Some r =>
      x01
      :: match redis_request.simpleRoutes r with
         | None => x00
         | Some redis_request.AllNodes => x01
         | Some redis_request.AllPrimaries => x02
         | Some redis_request.Random => x03
         end
      :: objectBytes (redis_request.slotKeyRoute r)
      ++ objectBytes (redis_request.slotIdRoute r)
  end.

Definition bodyBytes (b : redis_request.RequestBody) : bytes :=
  match b with
  | redis_request.singleCommand _ => [x01]
  | redis_request.transaction t =>
      [x02; SampleWire.byte_of (length (redis_request.commands t))]
  | redis_request.scriptInvocation _ => [x03]
  end.

Definition encodeRequest (m : redis_request.RedisRequest) : bytes :=
  SampleWire.byte_of (redis_request.callbackIdx m)
  :: bodyBytes (redis_request.body m) ++ routeBytes (redis_request.route m).

End RoutedWire.

(** C9.  On an open client, [exec] with a slot-id route creates one
    promise under one callback index and sends, as one request, the
    [Transaction] with the commands in the order given; but the route of
    that request has its slot-id route field empty: the [SlotIdRoute]
    with the slot id and the slot type sits in the [slotKeyRoute]
    field. *)
Theorem exec_slot_id_route
    (encodeRequest : redis_request.RedisRequest -> bytes)
    (commands : list redis_request.Command)
    (type : SlotIdType) (id : nat) (c : Client) :
  isClosed c = false ->
  exists c',
    exec encodeRequest commands (Some (SlotIdTypes type id)) c
    = Returned (length (issued c)) c'
    /\ array_get (promiseCallbackFunctions c') (fst (getCallbackIndex c))
       = Some (length (issued c))
    /\ outgoing c'
       = outgoing c
         ++ encodeRequest
              {| redis_request.callbackIdx := fst (getCallbackIndex c);
                 redis_request.body :=
                   redis_request.transaction
                     {| redis_request.commands := commands |};
                 redis_request.route :=
                   Some
                     {| redis_request.simpleRoutes := None;
                        redis_request.slotKeyRoute :=
                          Some
                            (redis_request.OfSlotIdRoute
                               {| redis_request.slotId_slotType :=
                                    match type with
                                    | primarySlotId => redis_request.Primary
                                    | replicaSlotId => redis_request.Replica
                                    end;
                                  redis_request.slotId := id |});
                        redis_request.slotIdRoute := None |} |}.
Proof.
  intros Hopen.
  destruct (@exec_single_request encodeRequest commands
              (Some (SlotIdTypes type id)) c Hopen)
    as (c' & H1 & H2 & _ & H4 & _).
  exists c'. split; [exact H1|]. split; [exact H2|].
  rewrite H4. destruct type; reflexivity.
Qed.

Lemma exec_slot_id_route_witness :
  exists c',
    exec RoutedWire.encodeRequest [sampleCommand; sampleCommand]
      (Some (SlotIdTypes primarySlotId 5)) firstAnswered
    = Returned 2 c'
    /\ array_get (promiseCallbackFunctions c') 0 = Some 2
    /\ outgoing c'
       = outgoing firstAnswered
         ++ [x00; x02; x02; x01; x00; x02; x00; x05; x00].
Proof.
  apply (@exec_slot_id_route RoutedWire.encodeRequest
           [sampleCommand; sampleCommand] primarySlotId 5 firstAnswered
           eq_refl).
Defined.

(** With the routes other than slot-id routes, the request [exec] sends
    carries the route's own data. *)
Lemma exec_other_routes
    (encodeRequest : redis_request.RedisRequest -> bytes)
    (commands : list redis_request.Command)
    (route : option SingleNodeRoute) (c : Client) :
  isClosed c = false ->
  (forall type id, route <> Some (SlotIdTypes type id)) ->
  exists c',
    exec encodeRequest commands route c = Returned (length (issued c)) c'
    /\ outgoing c'
       = outgoing c
         ++ encodeRequest
              {| redis_request.callbackIdx := fst (getCallbackIndex c);
                 redis_request.body :=
                   redis_request.transaction
                     {| redis_request.commands := commands |};
                 redis_request.route :=
                   match route with
                   | None => None
                   | Some randomNode =>
                       Some {| redis_request.simpleRoutes :=
                                 Some redis_request.Random;
                               redis_request.slotKeyRoute := None;
                               redis_request.slotIdRoute := None |}
                   | Some (SlotKeyTypes type key) =>
                       Some {| redis_request.simpleRoutes := None;
                               redis_request.slotKeyRoute :=
                                 Some
                                   (redis_request.OfSlotKeyRoute
                                      {| redis_request.slotKey_slotType :=
                                           match type with
                                           | primarySlotKey =>
                                               redis_request.Primary
                                           | replicaSlotKey =>
                                               redis_request.Replica
                                           end;
                                         redis_request.slotKey := key |});
                               redis_request.slotIdRoute := None |}
                   | Some (SlotIdTypes _ _) => None
                   end |}.
Proof.
  intros Hopen Hroute.
  destruct (@exec_single_request encodeRequest commands route c Hopen)
    as (c' & H1 & _ & _ & H4 & _).
  exists c'. split; [exact H1|]. rewrite H4.
  destruct route as [[|type id|[|] key]|]; try reflexivity.
  exfalso. apply (Hroute type id). reflexivity.
Qed.

(** * Further properties of the client *)

(** ** Responses that carry a value *)

(** X2.  A response frame for a registered, pending callback that carries no
    error resolves the promise: with [valueFromSplitPointer 0 n] for a
    [resp_pointer] that is a number [n], with
    [valueFromSplitPointer high low] for one that is a [Long] with the
    signed halves [high] and [low], and with the string ["OK"] when there
    is no pointer and the constant response is [OK].  [handleReadData]
    ends with that resolution made, first after the settlements made
    before, and with the callback index pushed on the free stack; when the
    frame is the whole chunk it returns with exactly that added. *)
Theorem value_response_resolves
    (decodeDelimited : bytes -> Decode) (c : Client) (data rest : bytes)
    (message : response.Response) (p : PromiseId) (v : Value) :
  reader_advances decodeDelimited ->
  remainingReadData c = None ->
  data <> [] ->
  decodeDelimited data = Decoded message rest ->
  response.closingError message = None ->
  response.requestError message = None ->
  array_get (promiseCallbackFunctions c) (response.callbackIdx message)
  = Some p ->
  settledb p (settlements c) = false ->
  match response.respPointer message with
  | Some (response.PNumber n) => v = valueFromSplitPointer 0 (Z.of_nat n)
  | Some (response.PLong high low) => v = valueFromSplitPointer high low
  | None =>
      response.constantResponse message = Some response.OK /\ v = Str "OK"
  end ->
  (exists c',
      (handleReadData decodeDelimited data c = Returned tt c'
       \/ exists exn, handleReadData decodeDelimited data c = Threw exn c')
      /\ (exists more,
            settlements c' = settlements c ++ (p, Resolved v) :: more)
      /\ (exists later,
            availableCallbackSlots c'
            = later ++ response.callbackIdx message
                         :: availableCallbackSlots c)
      /\ (rest = [] ->
          handleReadData decodeDelimited data c = Returned tt c'
          /\ settlements c' = settlements c ++ [(p, Resolved v)]
          /\ availableCallbackSlots c'
             = response.callbackIdx message :: availableCallbackSlots c))
  /\ (exists c1,
        handleReadData decodeDelimited data c
        = handleReadData decodeDelimited rest c1
        /\ settlements c1 = settlements c ++ [(p, Resolved v)]
        /\ availableCallbackSlots c1
           = response.callbackIdx message :: availableCallbackSlots c).
Proof.
  intros Hadv Hrem Hdata Hd Hclosing He Hp Hu Hv.
  assert (Ho : outcomeOf message = Resolved v).
  { unfold outcomeOf. rewrite He.
    destruct (response.respPointer message) as [[n|high low]|].
    - rewrite Hv. reflexivity.
    - rewrite Hv. reflexivity.
    - destruct Hv as [Hok ->]. rewrite Hok. reflexivity. }
  rewrite <- Ho.
  apply frame_settles; assumption.
Qed.

Lemma value_response_resolves_witness :
  exists c',
    handleReadData SampleWire.decodeDelimited [x04; x00; x05; x00; xff]
      twoOutstanding
    = Returned tt c'
    /\ settlements c' = [(0, Resolved (valueFromSplitPointer 0 (-1)))]
    /\ availableCallbackSlots c' = [0].
Proof.
  destruct (@value_response_resolves SampleWire.decodeDelimited
              twoOutstanding [x04; x00; x05; x00; xff] []
              (SampleWire.mkResponse 0 (Some (response.PLong 0 (-1)))
                 None None None) 0 (valueFromSplitPointer 0 (-1))
              SampleWire_advances eq_refl ltac:(discriminate)
              eq_refl eq_refl eq_refl eq_refl eq_refl eq_refl)
    as [(c' & _ & _ & _ & Hlast) _].
  exists c'. exact (Hlast eq_refl).
Defined.

(** ** A request and its response *)

Lemma writeOrBufferRequest_remaining {T} (m : T) enc c :
  remainingReadData (writeOrBufferRequest m enc c) = remainingReadData c.
Proof.
  unfold writeOrBufferRequest. simpl. destruct (writeInProgress c); reflexivity.
Qed.

Lemma createWritePromise_remaining encodeRequest command route c p c' :
  createWritePromise encodeRequest command route c = Returned p c' ->
  remainingReadData c' = remainingReadData c.
Proof.
  unfold createWritePromise. destruct (isClosed c); [discriminate|].
  unfold getCallbackIndex, newPromise, writeOrBufferRedisRequest.
  destruct (availableCallbackSlots c); intros H; inversion H;
    rewrite writeOrBufferRequest_remaining; reflexivity.
Qed.

(** X1.  On a reachable client, the response frame that carries the callback
    index under which [createWritePromise] has just sent a request settles
    the promise [createWritePromise] returned with the outcome of the
    frame: [handleReadData] ends with that settlement made, first after
    the settlements made before the request.  When the frame is the whole
    chunk, it returns with exactly that settlement added, and the index is
    the next one handed out. *)
Theorem response_settles_request
    (encodeRequest : redis_request.RedisRequest -> bytes)
    (decodeDelimited : bytes -> Decode)
    (c c1 : Client) (command : CommandArgument)
    (route : option redis_request.Routes) (p : PromiseId)
    (data rest : bytes) (message : response.Response) :
  reader_advances decodeDelimited ->
  reachable encodeRequest c ->
  remainingReadData c = None ->
  createWritePromise encodeRequest command route c = Returned p c1 ->
  data <> [] ->
  decodeDelimited data = Decoded message rest ->
  response.closingError message = None ->
  response.callbackIdx message = fst (getCallbackIndex c) ->
  (exists c',
      (handleReadData decodeDelimited data c1 = Returned tt c'
       \/ exists exn, handleReadData decodeDelimited data c1 = Threw exn c')
      /\ (exists more,
            settlements c'
            = settlements c ++ (p, outcomeOf message) :: more)
      /\ (exists later,
            availableCallbackSlots c'
            = later ++ response.callbackIdx message
                         :: availableCallbackSlots c1)
      /\ (rest = [] ->
          handleReadData decodeDelimited data c1 = Returned tt c'
          /\ settlements c' = settlements c ++ [(p, outcomeOf message)]
          /\ fst (getCallbackIndex c') = response.callbackIdx message))
  /\ (exists c2,
        handleReadData decodeDelimited data c1
        = handleReadData decodeDelimited rest c2
        /\ settlements c2 = settlements c ++ [(p, outcomeOf message)]
        /\ fst (getCallbackIndex c2) = response.callbackIdx message).
Proof.
  intros Hadv Hr Hrem Hcreate Hdata Hd Hclosing Hidx.
  pose proof (reachable_consistent Hr) as Hc.
  pose proof (createWritePromise_remaining _ _ _ _ Hcreate) as Hrem1.
  apply createWritePromise_correlation in Hcreate.
  destruct Hcreate as (_ & Hp & Hcor).
  unfold correlation in Hcor. inversion Hcor as [[Ht Hf Hi Hs]].
  assert (Hg : array_get (promiseCallbackFunctions c1)
                 (response.callbackIdx message) = Some p).
  { rewrite Ht, Hidx. apply array_get_set_same. }
  assert (Hu : settledb p (settlements c1) = false).
  { rewrite Hs. destruct (settledb p (settlements c)) eqn:E; [|reflexivity].
    apply (settled_issued Hc) in E. lia. }
  assert (Hrem1' : remainingReadData c1 = None) by congruence.
  destruct (@frame_settles decodeDelimited c1 data message rest p
              Hadv Hrem1' Hdata Hd Hclosing Hg Hu)
    as [(c' & Hres & Hmore & Hlater & Hlast) (c2 & K1 & K2 & K3)].
  rewrite Hs in *.
  split.
  - exists c'. split; [exact Hres|]. split; [exact Hmore|].
    split; [exact Hlater|]. intros Hrest.
    destruct (Hlast Hrest) as (L1 & L2 & L3).
    repeat (split; [assumption|]).
    unfold getCallbackIndex. rewrite L3. reflexivity.
  - exists c2. repeat (split; [assumption|]).
    unfold getCallbackIndex. rewrite K3. reflexivity.
Qed.

Lemma response_settles_request_witness :
  exists c',
    handleReadData SampleWire.decodeDelimited [x02; x00; x01]
      (submitTo firstAnswered)
    = Returned tt c'
    /\ settlements c'
       = [(0, Resolved (Str "OK")); (2, Resolved (Str "OK"))]
    /\ fst (getCallbackIndex c') = 0.
Proof.
  destruct (@response_settles_request SampleWire.encodeRequest
              SampleWire.decodeDelimited firstAnswered (submitTo firstAnswered)
              (OneCommand sampleCommand) None 2 [x02; x00; x01] []
              (SampleWire.okFrame 0) SampleWire_advances
              reachable_firstAnswered eq_refl eq_refl ltac:(discriminate)
              eq_refl eq_refl eq_refl)
    as [(c' & _ & _ & _ & Hlast) _].
  exists c'. exact (Hlast eq_refl).
Defined.

(** ** After close *)

(** X3.  Whatever the socket delivers after [close], no promise is settled any
    more: the outcomes are those [close] left. *)
Theorem closed_client_settles_nothing
    (decodeDelimited : bytes -> Decode) (errorMessage : option string)
    (c : Client) (chunks : list bytes) :
  reader_advances decodeDelimited ->
  settledBy (feed decodeDelimited chunks (close errorMessage c))
  = Some (settlements (close errorMessage c)).
Proof.
  intros Hadv. apply feed_all_settled; [assumption|].
  apply close_all_settled.
Qed.

Lemma closed_client_settles_nothing_witness :
  settledBy
    (feed SampleWire.decodeDelimited [[x02; x00]; [x01; x02; x01; x01]]
       (close None twoOutstanding))
  = Some [(0, Rejected ClosingError None); (1, Rejected ClosingError None)].
Proof.
  apply (@closed_client_settles_nothing SampleWire.decodeDelimited None
           twoOutstanding [[x02; x00]; [x01; x02; x01; x01]]
           SampleWire_advances).
Defined.

Lemma closed_same c :
  isClosed c = true -> socketEnded c = true ->
  socket_end (set_isClosed true c) = c.
Proof. destruct c. simpl. intros -> ->. reflexivity. Qed.

(** X4.  Closing a closed client changes nothing: the promises keep the
    outcome, and the rejections keep the message, of the first [close]. *)
Theorem close_twice (first second : option string) (c : Client) :
  close second (close first c) = close first c.
Proof.
  unfold close at 1.
  rewrite reject_all_idle.
  - apply closed_same; [apply close_isClosed | reflexivity].
  - intros p Hp. simpl in *. apply (close_all_settled first c p Hp).
Qed.

(** ** Reading only settles *)

(** X5.  Whatever bytes arrive, [handleReadData] registers and removes no
    callback, creates no promise, writes nothing to the socket and leaves
    the write buffer alone; the outcomes already made stay as they are,
    new ones are added after them.  With a reader that advances on every
    message the call comes to an end. *)
Theorem handleReadData_reads_only
    (decodeDelimited : bytes -> Decode) (data : bytes) (c : Client) :
  match handleReadData decodeDelimited data c with
  | Returned _ c' | Threw _ c' =>
      promiseCallbackFunctions c' = promiseCallbackFunctions c
      /\ issued c' = issued c
      /\ requestWriter c' = requestWriter c
      /\ writeInProgress c' = writeInProgress c
      /\ socketWritten c' = socketWritten c
      /\ socketCallbacks c' = socketCallbacks c
      /\ exists added, settlements c' = settlements c ++ added
  | OutOfFuel => True
  end
  /\ (reader_advances decodeDelimited ->
      handleReadData decodeDelimited data c <> OutOfFuel).
Proof.
  split.
  - unfold handleReadData. apply (readLoop_reads_only decodeDelimited).
  - intros Hadv. unfold handleReadData. apply readLoop_returns; auto.
Qed.

Lemma handleReadData_reads_only_witness :
  handleReadData SampleWire.decodeDelimited [x02; x01; x01; x05]
    twoOutstanding <> OutOfFuel.
Proof.
  apply (proj2 (@handleReadData_reads_only SampleWire.decodeDelimited
                  [x02; x01; x01; x05] twoOutstanding)).
  exact SampleWire_advances.
Defined.

(** ** The writer drains *)

Lemma drain_twice c :
  writer_ok c ->
  concat (socketWritten (socketWriteDone (socketWriteDone c))) = outgoing c
  /\ requestWriter (socketWriteDone (socketWriteDone c)) = []
  /\ writeInProgress (socketWriteDone (socketWriteDone c)) = false
  /\ socketCallbacks (socketWriteDone (socketWriteDone c)) = 0.
Proof.
  unfold writer_ok, outgoing, socketWriteDone, writeCallback.
  destruct c as [t f w wip r cl sw cb se iss st]. simpl.
  intros [H1 H2]. destruct wip; subst cb; simpl.
  - destruct w as [|b w]; simpl.
    + rewrite app_nil_r. auto.
    + rewrite concat_app. simpl. rewrite app_nil_r. auto.
  - rewrite (H2 eq_refl), app_nil_r. auto.
Qed.

(** X6.  After any sequence of submissions and finished writes on a new
    client, two more finished writes leave the writer empty and idle with
    no write on the socket, and the socket has then been given exactly the
    submitted bytes, in submission order. *)
Theorem writer_drains (events : list WriterEvent) :
  concat (socketWritten (run (events ++ [WriteDone; WriteDone]) newClient))
  = submitted events
  /\ requestWriter (run (events ++ [WriteDone; WriteDone]) newClient) = []
  /\ writeInProgress (run (events ++ [WriteDone; WriteDone]) newClient)
     = false
  /\ socketCallbacks (run (events ++ [WriteDone; WriteDone]) newClient) = 0.
Proof.
  assert (Hnew : writer_ok newClient) by (split; reflexivity).
  destruct (run_writer events Hnew) as [Hok Hout].
  unfold run. rewrite fold_left_app. fold (run events newClient). simpl.
  destruct (drain_twice Hok) as (H1 & H2 & H3 & H4).
  rewrite H1, Hout. auto.
Qed.

(** ** No empty write *)

Definition isSubmit (e : WriterEvent) : bool :=
  match e with Submit _ => true | WriteDone => false end.

(** The writes made so far are not empty, and with what waits in the
    writer they are no more than [n]. *)
Definition writes_within (n : nat) (c : Client) : Prop :=
  writer_ok c
  /\ Forall (fun written => written <> []) (socketWritten c)
  /\ length (socketWritten c)
     + (match requestWriter c with [] => 0 | _ :: _ => 1 end) <= n.

Lemma perform_writes_within n c e :
  writes_within n c ->
  (forall request, e = Submit request -> request <> []) ->
  writes_within (n + (if isSubmit e then 1 else 0)) (perform c e).
Proof.
  unfold writes_within, writer_ok.
  destruct c as [t f w wip r cl sw cb se iss st]. simpl.
  intros ((H1 & H2) & H3 & H4) He.
  destruct e as [request|]; simpl.
  - specialize (He request eq_refl).
    unfold writeOrBufferRequest. simpl. destruct wip; simpl.
    + split; [split; [assumption | discriminate]|]. split; [assumption|].
      destruct (w ++ request) eqn:E; destruct w; simpl in *; lia.
    + rewrite (H2 eq_refl) in *. simpl in *. subst cb.
      split; [split; [reflexivity | discriminate]|]. split.
      * apply Forall_app. split; [assumption|]. constructor; auto.
      * rewrite length_app. simpl. lia.
  - unfold socketWriteDone, writeCallback. simpl.
    destruct cb as [|cb]; simpl.
    + rewrite Nat.add_0_r. auto.
    + destruct wip; [|discriminate]. inversion H1; subst cb.
      destruct w as [|b w]; simpl.
      * split; [split; [reflexivity | reflexivity]|].
        split; [assumption | simpl in H4; lia].
      * split; [split; [reflexivity | discriminate]|]. split.
        -- apply Forall_app. split; [assumption|].
           constructor; [discriminate | constructor].
        -- rewrite length_app. simpl in *. lia.
Qed.

Lemma run_writes_within events : forall n c,
  writes_within n c ->
  (forall request, In (Submit request) events -> request <> []) ->
  writes_within (n + length (filter isSubmit events)) (run events c).
Proof.
  induction events as [|e events IH]; intros n c Hc He.
  - simpl. rewrite Nat.add_0_r. assumption.
  - change (run (e :: events) c) with (run events (perform c e)).
    assert (Hstep : writes_within (n + (if isSubmit e then 1 else 0))
                      (perform c e)).
    { apply perform_writes_within; [assumption|].
      intros request ->. apply He. left. reflexivity. }
    apply IH with (n := n + (if isSubmit e then 1 else 0)) in Hstep.
    + simpl filter. destruct (isSubmit e); simpl length;
        [rewrite Nat.add_succ_r, <- Nat.add_1_r
        | rewrite Nat.add_0_r in Hstep];
        rewrite <- ?Nat.add_assoc in *; simpl in *;
        rewrite ?Nat.add_1_r in *; exact Hstep.
    + intros request Hin. apply He. right. assumption.
Qed.

(** X7.  When no submitted request is empty, the client never passes an empty
    buffer to [socket.write], and it calls [socket.write] at most once per
    submitted request: requests are put together, never split. *)
Theorem no_empty_write (events : list WriterEvent) :
  (forall request, In (Submit request) events -> request <> []) ->
  Forall (fun written => written <> [])
    (socketWritten (run events newClient))
  /\ length (socketWritten (run events newClient))
     <= length (filter isSubmit events).
Proof.
  intros He.
  assert (Hnew : writes_within 0 newClient).
  { split; [split; reflexivity|]. split; [constructor | simpl; lia]. }
  destruct (run_writes_within events Hnew He) as (_ & H1 & H2).
  split; [assumption|]. simpl in H2. lia.
Qed.

Lemma no_empty_write_witness :
  let events := [Submit [x01; x00]; Submit [x01; x01]; Submit [x01; x02];
                 WriteDone; WriteDone; Submit [x01; x03]] in
  Forall (fun written => written <> [])
    (socketWritten (run events newClient))
  /\ length (socketWritten (run events newClient)) <= 4.
Proof.
  intros events. apply (no_empty_write events).
  intros request Hin. simpl in Hin.
  repeat (destruct Hin as [Hin | Hin]; [inversion Hin; discriminate|]).
  contradiction.
Defined.

(** ** The callback table has no holes *)

Definition dense (table : list (option PromiseId)) : Prop :=
  Forall (fun entry => entry <> None) table.

Lemma array_set_dense (v : PromiseId) : forall i table,
  dense table -> i <= length table ->
  dense (array_set table i v)
  /\ length (array_set table i v)
     = (if i <? length table then length table else S (length table)).
Proof.
  unfold dense. induction i as [|i IH]; intros [|x table] Hd Hi; simpl in *.
  - split; [repeat constructor; discriminate | reflexivity].
  - inversion Hd; subst. split; [constructor; [discriminate | assumption]|].
    reflexivity.
  - lia.
  - inversion Hd as [|? ? Hx Ht]; subst.
    destruct (IH table) as [IH1 IH2]; [assumption | lia |].
    split; [constructor; assumption|]. rewrite IH2.
    change (S i <? S (length table)) with (i <? length table).
    destruct (i <? length table); reflexivity.
Qed.

Lemma getCallbackIndex_bound c :
  consistent c -> fst (getCallbackIndex c) <= length (promiseCallbackFunctions c).
Proof.
  intros Hc. unfold getCallbackIndex.
  destruct (availableCallbackSlots c) as [|i slots] eqn:E; simpl; [lia|].
  destruct (free_settled Hc i) as (q & Hq & _); [rewrite E; left; reflexivity|].
  apply array_get_length in Hq. lia.
Qed.

Lemma getCallbackIndex_fresh c :
  consistent c ->
  (fst (getCallbackIndex c) <? length (promiseCallbackFunctions c))
  = match availableCallbackSlots c with [] => false | _ :: _ => true end.
Proof.
  intros Hc. unfold getCallbackIndex.
  destruct (availableCallbackSlots c) as [|i slots] eqn:E; simpl.
  - apply Nat.ltb_irrefl.
  - destruct (free_settled Hc i) as (q & Hq & _); [rewrite E; left; reflexivity|].
    apply array_get_length in Hq. apply Nat.ltb_lt. assumption.
Qed.

Section Table.

Variable encodeRequest : redis_request.RedisRequest -> bytes.

Lemma reachable_dense c :
  reachable encodeRequest c ->
  dense (promiseCallbackFunctions c)
  /\ length (promiseCallbackFunctions c) <= length (issued c).
Proof.
  induction 1 as [|c c' Hr IH Hstep].
  - split; [constructor | simpl; lia].
  - pose proof (reachable_consistent Hr) as Hc. destruct IH as [Hd Hl].
    destruct Hstep.
    + unfold connectToServer, newPromise. simpl.
      rewrite writeOrBufferRequest_table, writeOrBufferRequest_issued. simpl.
      rewrite H. simpl. split; [repeat constructor; discriminate|].
      rewrite length_app. simpl. lia.
    + apply createWritePromise_correlation in H.
      destruct H as (_ & _ & Hcor). unfold correlation in Hcor.
      inversion Hcor as [[Ht Hf Hi Hs]].
      destruct (@array_set_dense p (fst (getCallbackIndex c))
                  (promiseCallbackFunctions c) Hd
                  (getCallbackIndex_bound Hc)) as [H1 H2].
      rewrite Ht, Hi.
      split; [assumption|]. rewrite H2, length_app. simpl.
      destruct (fst (getCallbackIndex c) <? length (promiseCallbackFunctions c));
        lia.
    + unfold processResponse in H0.
      destruct (response.closingError message); [discriminate|].
      destruct (array_get _ _); inversion H0; subst c'.
      rewrite settle_table, settle_issued. simpl. auto.
    + simpl. auto.
    + rewrite close_table, close_issued. auto.
    + pose proof (socketWriteDone_correlation c) as Hcor.
      unfold correlation in Hcor. inversion Hcor as [[Ht Hf Hi Hs]].
      rewrite Ht, Hi. auto.
Qed.

(** X8.  In every reachable state the callback table has no hole, and is no
    longer than the number of promises created.  [createWritePromise]
    makes it longer, by one slot, only when no callback slot is free. *)
Theorem callback_table_dense (c : Client) :
  reachable encodeRequest c ->
  (forall i, i < length (promiseCallbackFunctions c) ->
             exists p, nth_error (promiseCallbackFunctions c) i
                       = Some (Some p))
  /\ length (promiseCallbackFunctions c) <= length (issued c)
  /\ (forall command route p c',
        createWritePromise encodeRequest command route c = Returned p c' ->
        length (promiseCallbackFunctions c')
        = match availableCallbackSlots c with
          | [] => S (length (promiseCallbackFunctions c))
          | _ :: _ => length (promiseCallbackFunctions c)
          end).
Proof.
  intros Hr. pose proof (reachable_consistent Hr) as Hc.
  destruct (reachable_dense Hr) as [Hd Hl].
  split; [|split; [assumption|]].
  - intros i Hi. unfold dense in Hd. rewrite Forall_forall in Hd.
    destruct (nth_error (promiseCallbackFunctions c) i) as [[p|]|] eqn:E.
    + exists p. reflexivity.
    + exfalso. apply (Hd None); [|reflexivity]. eapply nth_error_In; eauto.
    + apply nth_error_None in E. lia.
  - intros command route p c' H.
    apply createWritePromise_correlation in H.
    destruct H as (_ & _ & Hcor). unfold correlation in Hcor.
    inversion Hcor as [[Ht Hf Hi Hs]].
    destruct (@array_set_dense p (fst (getCallbackIndex c))
                (promiseCallbackFunctions c) Hd
                (getCallbackIndex_bound Hc)) as [_ H2].
    rewrite Ht, H2, (getCallbackIndex_fresh Hc).
    destruct (availableCallbackSlots c); reflexivity.
Qed.

End Table.

Lemma callback_table_dense_witness :
  length (promiseCallbackFunctions (submitTo firstAnswered)) = 2
  /\ (forall i, i < 2 ->
        exists p, nth_error (promiseCallbackFunctions firstAnswered) i
                  = Some (Some p)).
Proof.
  destruct (@callback_table_dense SampleWire.encodeRequest firstAnswered
              reachable_firstAnswered) as (H1 & _ & H3).
  split.
  - apply (H3 (OneCommand sampleCommand) None 2 (submitTo firstAnswered)).
    reflexivity.
  - exact H1.
Defined.

(** ** A closed client *)

Lemma socketWriteDone_isClosed c : isClosed (socketWriteDone c) = isClosed c.
Proof.
  unfold socketWriteDone, writeCallback.
  destruct (socketCallbacks c); [reflexivity|]. simpl.
  destruct (0 <? length (requestWriter c)); reflexivity.
Qed.

Lemma createWritePromise_stays_open encodeRequest command route c p c' :
  createWritePromise encodeRequest command route c = Returned p c' ->
  isClosed c' = false.
Proof.
  unfold createWritePromise. destruct (isClosed c) eqn:E; [discriminate|].
  unfold getCallbackIndex, newPromise, writeOrBufferRedisRequest.
  destruct (availableCallbackSlots c); intros H; inversion H;
    rewrite writeOrBufferRequest_isClosed; simpl; assumption.
Qed.

Lemma reachable_closed_settled encodeRequest c :
  reachable encodeRequest c -> isClosed c = true -> all_settled c.
Proof.
  induction 1 as [|c c' Hr IH Hstep]; [discriminate|].
  destruct Hstep.
  - unfold connectToServer, newPromise. simpl.
    rewrite writeOrBufferRequest_isClosed. simpl. congruence.
  - apply createWritePromise_stays_open in H. congruence.
  - unfold processResponse in H0.
    destruct (response.closingError message); [discriminate|].
    destruct (array_get _ _) as [p|]; inversion H0; subst c'.
    rewrite (proj1 (proj2 (proj2 (proj2 (proj2 (proj2 (settle_fields _ _ _))))))).
    simpl. intros Hclosed q Hq. rewrite settle_table in Hq. simpl in Hq.
    apply settle_keeps. simpl. apply IH; assumption.
  - simpl. intros Hclosed q Hq. simpl in *. apply IH; assumption.
  - intros _. apply close_all_settled.
  - rewrite socketWriteDone_isClosed. intros Hclosed q Hq.
    pose proof (socketWriteDone_correlation c) as Hcor.
    unfold correlation in Hcor. inversion Hcor as [[Ht Hf Hi Hs]].
    rewrite Ht in Hq. rewrite Hs. apply IH; assumption.
Qed.

(** X9.  A reachable client that is closed has no pending promise: whoever
    closed it, and whatever happened since, every promise the client ever
    created has been settled. *)
Theorem closed_client_has_no_pending
    (encodeRequest : redis_request.RedisRequest -> bytes) (c : Client) :
  reachable encodeRequest c ->
  isClosed c = true ->
  forall p, ~ pending c p.
Proof.
  intros Hr Hclosed p Hp.
  pose proof (reachable_consistent Hr) as Hc.
  destruct (owns Hc Hp) as (i & _ & Hg).
  apply array_get_In in Hg.
  apply (reachable_closed_settled Hr Hclosed) in Hg.
  destruct Hp as [_ Hp]. congruence.
Qed.

Lemma closed_client_has_no_pending_witness :
  isClosed (close None twoOutstanding) = true
  /\ (forall p, ~ pending (close None twoOutstanding) p).
Proof.
  split; [apply close_isClosed|].
  apply (@closed_client_has_no_pending SampleWire.encodeRequest).
  - eapply reachable_step; [exact reachable_twoOutstanding | apply step_close].
  - apply close_isClosed.
Defined.

(** ** Scripts *)

(** The options of [invokeScript]. *)
Record ScriptOptions := {
  keys : option (list string);
  args : option (list string)
}.

(** [ScriptInvocation.create]: a repeated field that is not given is the
    empty array. *)
Definition ScriptInvocation_create (hash : string)
    (keys args : option (list string)) : redis_request.ScriptInvocation :=
  {| redis_request.hash := hash;
     redis_request.keys := match keys with Some k => k | None => [] end;
     redis_request.args := match args with Some a => a | None => [] end |}.

(** [invokeScript(script, option)], with [hash] the value of
    [script.getHash()]. *)
Definition invokeScript
    (encodeRequest : redis_request.RedisRequest -> bytes)
    (hash : string) (option : option ScriptOptions) (c : Client)
  : Result PromiseId :=
  let scriptInvocation :=
    ScriptInvocation_create hash
      (match option with Some o => keys o | None => None end)
      (match option with Some o => args o | None => None end) in
  createWritePromise encodeRequest (Script scriptInvocation) None c.

Lemma writeOrBufferRequest_settlements {T} (m : T) enc c :
  settlements (writeOrBufferRequest m enc c) = settlements c.
Proof.
  unfold writeOrBufferRequest. simpl. destruct (writeInProgress c); reflexivity.
Qed.

(** What [createWritePromise] does on an open client. *)
Lemma createWritePromise_open encodeRequest command route c :
  isClosed c = false ->
  exists c',
    createWritePromise encodeRequest command route c
    = Returned (length (issued c)) c'
    /\ array_get (promiseCallbackFunctions c') (fst (getCallbackIndex c))
       = Some (length (issued c))
    /\ settlements c' = settlements c
    /\ outgoing c'
       = outgoing c
         ++ encodeRequest
              (set_route route
                 (RedisRequest_create (fst (getCallbackIndex c)) command)).
Proof.
  intros Hopen. unfold createWritePromise. rewrite Hopen.
  destruct (getCallbackIndex c) as [idx c1] eqn:E.
  assert (Hc1 : issued c1 = issued c /\ settlements c1 = settlements c
                /\ outgoing c1 = outgoing c).
  { unfold getCallbackIndex in E.
    destruct (availableCallbackSlots c); inversion E; repeat split. }
  destruct Hc1 as (Hi & Hs & Ho).
  unfold newPromise. rewrite Hi. simpl fst.
  eexists. split; [reflexivity|]. unfold writeOrBufferRedisRequest.
  split; [|split].
  - rewrite writeOrBufferRequest_table. simpl. apply array_get_set_same.
  - rewrite writeOrBufferRequest_settlements. simpl. assumption.
  - rewrite writeOrBufferRequest_outgoing. unfold outgoing in *. simpl.
    rewrite Ho. reflexivity.
Qed.

(** X10.  [invokeScript] on a closed client throws a [ClosingError] and changes
    nothing.  On an open client it creates one promise and sends one
    request, without a route, whose body is the script invocation with
    the script's hash and with the keys and arguments of the options, each
    of them empty when it is not given. *)
Theorem invokeScript_request
    (encodeRequest : redis_request.RedisRequest -> bytes)
    (hash : string) (option : option ScriptOptions) (c : Client) :
  (isClosed c = true ->
   invokeScript encodeRequest hash option c
   = Threw (Raised ClosingError (Some closedMessage)) c)
  /\ (isClosed c = false ->
      exists c',
        invokeScript encodeRequest hash option c
        = Returned (length (issued c)) c'
        /\ array_get (promiseCallbackFunctions c') (fst (getCallbackIndex c))
           = Some (length (issued c))
        /\ outgoing c'
           = outgoing c
             ++ encodeRequest
                  {| redis_request.callbackIdx := fst (getCallbackIndex c);
                     redis_request.body :=
                       redis_request.scriptInvocation
                         {| redis_request.hash := hash;
                            redis_request.keys :=
                              match option with
                              | Some {| keys := Some k |} => k
                              | _ => []
                              end;
                            redis_request.args :=
                              match option with
                              | Some {| args := Some a |} => a
                              | _ => []
                              end |};
                     redis_request.route := None |}).
Proof.
  split.
  - intros Hclosed. unfold invokeScript, createWritePromise.
    rewrite Hclosed. reflexivity.
  - intros Hopen. unfold invokeScript.
    destruct (@createWritePromise_open encodeRequest
                (Script
                   (ScriptInvocation_create hash
                      match option with Some o => keys o | None => None end
                      match option with Some o => args o | None => None end))
                None c Hopen) as (c' & H1 & H2 & _ & H4).
    exists c'. split; [exact H1|]. split; [exact H2|].
    rewrite H4. destruct option as [[[k|] [a|]]|]; reflexivity.
Qed.

Lemma invokeScript_request_witness :
  exists c',
    invokeScript SampleWire.encodeRequest "abc"
      (Some {| keys := Some ["k"%string]; args := None |}) firstAnswered
    = Returned 2 c'
    /\ array_get (promiseCallbackFunctions c') 0 = Some 2.
Proof.
  destruct (proj2 (@invokeScript_request SampleWire.encodeRequest "abc"
                     (Some {| keys := Some ["k"%string]; args := None |})
                     firstAnswered) eq_refl) as (c' & H1 & H2 & _).
  exists c'. split; [exact H1 | exact H2].
Defined.

(** ** Connecting *)

(** A chunk that holds exactly one frame, which answers a registered
    callback. *)
Lemma handleReadData_last decodeDelimited c data message p :
  remainingReadData c = None ->
  data <> [] ->
  decodeDelimited data = Decoded message [] ->
  response.closingError message = None ->
  array_get (promiseCallbackFunctions c) (response.callbackIdx message)
  = Some p ->
  handleReadData decodeDelimited data c
  = Returned tt (set_remainingReadData None (answered message p c)).
Proof.
  intros Hrem Hdata Hd Hclosing Hp.
  unfold handleReadData, readBuffer. rewrite Hrem.
  destruct data as [|b data]; [congruence|].
  simpl. rewrite Hd. unfold processResponse. rewrite Hclosing, Hp.
  fold (answered message p c).
  destruct (length data); reflexivity.
Qed.


(** X11.  On a new client [connectToServer] creates promise 0, registers it in
    slot 0 and passes the connection request to the socket in the first
    write.  When the response for callback index 0 arrives, the promise is
    settled with its outcome, and the first request of the client is sent
    under callback index 0 again: the table keeps its one slot.  The
    request waits in the writer as long as the socket has not reported the
    first write as finished. *)
Theorem connect_then_first_request
    (encodeRequest : redis_request.RedisRequest -> bytes)
    (decodeDelimited : bytes -> Decode)
    (connectionRequest data : bytes) (message : response.Response)
    (command : CommandArgument) (route : option redis_request.Routes) :
  data <> [] ->
  decodeDelimited data = Decoded message [] ->
  response.closingError message = None ->
  response.callbackIdx message = 0 ->
  fst (connectToServer connectionRequest newClient) = 0
  /\ socketWritten (snd (connectToServer connectionRequest newClient))
     = [connectionRequest]
  /\ exists c2,
       handleReadData decodeDelimited data
         (snd (connectToServer connectionRequest newClient))
       = Returned tt c2
       /\ settlements c2 = [(0, outcomeOf message)]
       /\ exists c3,
            createWritePromise encodeRequest command route c2
            = Returned 1 c3
            /\ promiseCallbackFunctions c3 = [Some 1]
            /\ socketWritten c3 = [connectionRequest]
            /\ requestWriter c3
               = encodeRequest
                   (set_route route (RedisRequest_create 0 command)).
Proof.
  intros Hdata Hd Hclosing Hidx.
  split; [reflexivity|]. split; [reflexivity|].
  set (c1 := snd (connectToServer connectionRequest newClient)).
  set (c2 := set_remainingReadData None (answered message 0 c1)).
  exists c2. split; [|split].
  - apply handleReadData_last; try assumption.
    + reflexivity.
    + rewrite Hidx. reflexivity.
  - vm_compute. reflexivity.
  - exists (match createWritePromise encodeRequest command route c2 with
            | Returned _ c3 => c3
            | _ => c2
            end).
    subst c2. unfold answered. rewrite Hidx.
    repeat split; vm_compute; reflexivity.
Qed.

Lemma connect_then_first_request_witness :
  exists c2,
    handleReadData SampleWire.decodeDelimited [x02; x00; x01]
      (snd (connectToServer [x09] newClient))
    = Returned tt c2
    /\ settlements c2 = [(0, Resolved (Str "OK"))].
Proof.
  destruct (@connect_then_first_request SampleWire.encodeRequest
              SampleWire.decodeDelimited [x09] [x02; x00; x01]
              (SampleWire.okFrame 0) (OneCommand sampleCommand) None
              ltac:(discriminate) eq_refl eq_refl eq_refl)
    as (_ & _ & c2 & H1 & H2 & _).
  exists c2. split; [exact H1 | exact H2].
Defined.

(** ** The connection request *)

Module connection_request.

Inductive ReadFrom := Primary | PreferReplica | LowestLatency | AZAffinity.

Inductive TlsMode := NoTls | SecureTls | InsecureTls.

Inductive ProtocolVersion := RESP3 | RESP2.

Record AuthenticationInfo := {
  password : string;
  username : option string
}.

(** An address as the options give it: the port may be missing. *)
Record NodeAddress := { host : string; port : option nat }.

Record IConnectionRequest := {
  protocol : option ProtocolVersion;
  clientName : option string;
  addresses : list NodeAddress;
  tlsMode : TlsMode;
  requestTimeout : option nat;
  clusterModeEnabled : bool;
  readFrom : option ReadFrom;
  authenticationInfo : option AuthenticationInfo
}.

End connection_request.

Inductive ReadFrom := primary | preferReplica.

Record RedisCredentials := {
  credentials_username : option string;
  credentials_password : string
}.

Record BaseClientConfiguration := {
  addresses : list connection_request.NodeAddress;
  useTLS : option bool;
  credentials : option RedisCredentials;
  requestTimeout : option nat;
  readFrom : option ReadFrom;
  serverProtocol : option connection_request.ProtocolVersion;
  clientName : option string
}.

Definition MAP_READ_FROM_STRATEGY (r : ReadFrom) : connection_request.ReadFrom :=
  match r with
  | primary => connection_request.Primary
  | preferReplica => connection_request.PreferReplica
  end.

(** [BaseClient.createClientRequest] *)
Definition createClientRequest (options : BaseClientConfiguration)
  : connection_request.IConnectionRequest :=
  let readFrom := match readFrom options with
                  | Some r => Some (MAP_READ_FROM_STRATEGY r)
                  | None => None
                  end in
  let authenticationInfo :=
    match credentials options with
    | Some cr =>
        Some {| connection_request.password := credentials_password cr;
                connection_request.username := credentials_username cr |}
    | None => None
    end in
  let protocol := serverProtocol options in
  {| connection_request.protocol := protocol;
     connection_request.clientName := clientName options;
     connection_request.addresses := addresses options;
     connection_request.tlsMode :=
       match useTLS options with
       | Some true => connection_request.SecureTls
       | _ => connection_request.NoTls
       end;
     connection_request.requestTimeout := requestTimeout options;
     connection_request.clusterModeEnabled := false;
     connection_request.readFrom := readFrom;
     connection_request.authenticationInfo := authenticationInfo |}.

Definition set_clusterModeEnabled (v : bool)
    (r : connection_request.IConnectionRequest)
  : connection_request.IConnectionRequest :=
  {| connection_request.protocol := connection_request.protocol r;
     connection_request.clientName := connection_request.clientName r;
     connection_request.addresses := connection_request.addresses r;
     connection_request.tlsMode := connection_request.tlsMode r;
     connection_request.requestTimeout := connection_request.requestTimeout r;
     connection_request.clusterModeEnabled := v;
     connection_request.readFrom := connection_request.readFrom r;
     connection_request.authenticationInfo :=
       connection_request.authenticationInfo r |}.

(** [RedisClusterClient.createClientRequest] *)
Definition cluster_createClientRequest (options : BaseClientConfiguration)
  : connection_request.IConnectionRequest :=
  let configuration := createClientRequest options in
  set_clusterModeEnabled true configuration.

(** X12.  The connection request asks for TLS exactly when [useTLS] is true, and
    never for the insecure mode; it carries authentication exactly when
    credentials are given, with their password; it never asks for a read
    strategy other than [Primary] and [PreferReplica]; addresses, timeout,
    protocol and client name are those of the options.  The request of the
    cluster client has cluster mode on, that of the base client has it
    off, and they agree on everything else. *)
Theorem createClientRequest_fields (options : BaseClientConfiguration) :
  (connection_request.tlsMode (createClientRequest options)
   = connection_request.SecureTls <-> useTLS options = Some true)
  /\ connection_request.tlsMode (createClientRequest options)
     <> connection_request.InsecureTls
  /\ (connection_request.authenticationInfo (createClientRequest options)
      = None <-> credentials options = None)
  /\ (forall cr, credentials options = Some cr ->
        option_map connection_request.password
          (connection_request.authenticationInfo (createClientRequest options))
        = Some (credentials_password cr))
  /\ connection_request.readFrom (createClientRequest options)
     <> Some connection_request.LowestLatency
  /\ connection_request.readFrom (createClientRequest options)
     <> Some connection_request.AZAffinity
  /\ connection_request.addresses (createClientRequest options)
     = addresses options
  /\ connection_request.requestTimeout (createClientRequest options)
     = requestTimeout options
  /\ connection_request.clusterModeEnabled (createClientRequest options)
     = false
  /\ connection_request.clusterModeEnabled
       (cluster_createClientRequest options) = true
  /\ set_clusterModeEnabled false (cluster_createClientRequest options)
     = createClientRequest options.
Proof.
  destruct options as [addr tls cr timeout rf proto name].
  unfold cluster_createClientRequest, createClientRequest. simpl.
  repeat split; try reflexivity; try discriminate.
  - destruct tls as [[|]|]; simpl; congruence.
  - destruct tls as [[|]|]; simpl; congruence.
  - destruct tls as [[|]|]; simpl; discriminate.
  - destruct cr; simpl; congruence.
  - destruct cr; simpl; congruence.
  - intros c0 H. inversion H; subst. reflexivity.
  - destruct rf as [[|]|]; simpl; discriminate.
  - destruct rf as [[|]|]; simpl; discriminate.
Qed.
